(** * ts-parser-combinators: a shallow embedding of [result.ts] and [index.ts]

    Strings are JavaScript strings, that is finite sequences of UTF-16 code
    units; a code unit is a number.  A parser is a function from the input
    to a result; since the repetition combinators run a [while (true)] loop
    and the markup grammar is recursive, a parser of the model returns
    [None] when the iteration or recursion budget given at construction is
    used up, and [Some r] when the program returns [r]. *)

From Stdlib Require Import String Ascii.
From Stdlib Require Import List NArith Arith Lia Bool.
Import ListNotations.
(* [length] is the length of a list from here on, not that of a [string]. *)
Import Corelib.Init.Datatypes.

Set Implicit Arguments.
Set Warnings "-register-all".

(** ** JavaScript strings *)

Definition codeunit := N.
Definition jsstring := list codeunit.

(** Code units of an ASCII literal. *)
Definition str (s : String.string) : jsstring :=
  List.map N_of_ascii (list_ascii_of_string s).
Arguments str s%_string.

(** [a === b] on strings. *)
Fixpoint streq (a b : jsstring) : bool :=
  match a, b with
  | [], [] => true
  | x :: a', y :: b' => N.eqb x y && streq a' b'
  | _, _ => false
  end.

(** [as.join("")] *)
Definition join (ss : list jsstring) : jsstring := List.concat ss.

(** WhiteSpace and LineTerminator code units, the ones [trim] removes. *)
Definition isWhiteSpace (c : codeunit) : bool :=
  ((9 <=? c) && (c <=? 13) || (c =? 32) || (c =? 160) || (c =? 5760)
   || (8192 <=? c) && (c <=? 8202) || (c =? 8232) || (c =? 8233)
   || (c =? 8239) || (c =? 8287) || (c =? 12288) || (c =? 65279))%N.

Fixpoint trimStart (s : jsstring) : jsstring :=
  match s with
  | [] => []
  | c :: s' => if isWhiteSpace c then trimStart s' else s
  end.

(** [s.trim()] *)
Definition trim (s : jsstring) : jsstring :=
  List.rev (trimStart (List.rev (trimStart s))).

(** ** result.ts *)

Module R.

Inductive Result (E A : Type) : Type :=
| Failure (value : E)
| Success (value : A).
Arguments Failure {E A} value.
Arguments Success {E A} value.

Definition failure {E A} (value : E) : Result E A := Failure value.
Definition success {E A} (value : A) : Result E A := Success value.

Definition isFailure {E A} (value : Result E A) : bool :=
  match value with Failure _ => true | Success _ => false end.

Definition isSuccess {E A} (value : Result E A) : bool :=
  match value with Success _ => true | Failure _ => false end.

Definition combineResults {E A B} (value1 : Result E A) (value2 : Result E B)
  : Result E (A * B) :=
  match value1 with
  | Failure e => Failure e
  | Success a =>
      match value2 with
      | Failure e => Failure e
      | Success b => success (a, b)
      end
  end.

Definition map {E A B} (result : Result E A) (f : A -> B) : Result E B :=
  match result with
  | Failure e => Failure e
  | Success a => success (f a)
  end.

Definition bind {E A B} (result : Result E A) (f : A -> Result E B)
  : Result E B :=
  match result with
  | Failure e => Failure e
  | Success a => f a
  end.

Definition mapError {E F A} (result : Result E A) (f : E -> F)
  : Result F A :=
  match result with
  | Success a => Success a
  | Failure e => failure (f e)
  end.

Definition matchResult {E A B} (onFailure : E -> B) (onSuccess : A -> B)
  (value : Result E A) : B :=
  match value with
  | Failure e => onFailure e
  | Success a => onSuccess a
  end.

(** [results.reduce(step, success([]))] is a left fold. *)
Definition all {E A} (results : list (Result E A)) : Result E (list A) :=
  List.fold_left
    (fun (total : Result E (list A)) (val : Result E A) =>
       match total with
       | Failure e => Failure e
       | Success vs =>
           matchResult (fun e => failure e)
                       (fun a => success (vs ++ [a])) val
       end)
    results (success []).

Definition id {A} (a : A) : A := a.

Definition flatten {A} (result : Result A A) : A :=
  matchResult (@id A) (@id A) result.

(** [results.filter(isSuccess)] *)
Definition any {E A} (results : list (Result E A)) : Result E (list A) :=
  all (List.filter isSuccess results).

(** [[result, ...results].reduce(step, result)]: the fold starts from
    [result] and visits [result] again as the first element. *)
Definition first {E A} (result : Result E A) (results : list (Result E A))
  : Result E A :=
  List.fold_left
    (fun (total current : Result E A) =>
       if isSuccess total then total else current)
    (result :: results) result.

(** [results.filter(isFailure).map((a) => a.value)]: the payloads of the
    failures, and likewise of the successes; the filter narrows the type,
    so the two steps are one here. *)
Definition split {E A} (results : list (Result E A)) : list E * list A :=
  let failures :=
    List.flat_map
      (fun a => match a with Failure e => [e] | Success _ => [] end)
      results in
  let successes :=
    List.flat_map
      (fun a => match a with Success v => [v] | Failure _ => [] end)
      results in
  (failures, successes).

End R.

Import R.

(** ** index.ts *)

Module P.

Definition Error := jsstring.

Definition ParserResult (A : Type) := Result Error (jsstring * A).

(** [None]: the call used up its budget of loop iterations or nested
    calls before returning. *)
Definition ParserFunc (A : Type) := jsstring -> option (ParserResult A).

Record Parser (A : Type) : Type := makeParser { parse : ParserFunc A }.

Notation "x <- c ;; k" :=
  (match c with None => None | Some x => k end)
    (at level 61, c at next level, right associativity).

Definition map {A B} (parser : Parser A) (f : A -> B) : Parser B :=
  makeParser (fun input =>
    r <- parse parser input ;;
    Some (R.map r (fun '(rest, a) => (rest, f a)))).

Definition pair {A B} (parserA : Parser A) (parserB : Parser B)
  : Parser (A * B) :=
  makeParser (fun input =>
    resultA <- parse parserA input ;;
    match resultA with
    | Failure e => Some (Failure e)
    | Success (rest, a) =>
        resultB <- parse parserB rest ;;
        match resultB with
        | Failure e => Some (Failure e)
        | Success (restB, b) => Some (success (restB, (a, b)))
        end
    end).

Definition left {A B} (parserA : Parser A) (parserB : Parser B) : Parser A :=
  map (pair parserA parserB) (fun '(a, _) => a).

Definition right {A B} (parserA : Parser A) (parserB : Parser B) : Parser B :=
  map (pair parserA parserB) (fun '(_, b) => b).

(** The [while (true)] loop shared by [oneOrMore] and [zeroOrMore]: at
    most [fuel] executions of the loop body. *)
Fixpoint loop {A} (fuel : nat) (parserA : Parser A)
    (next : jsstring) (results : list A) : option (ParserResult (list A)) :=
  match fuel with
  | O => None
  | S fuel' =>
      parsed <- parse parserA next ;;
      match parsed with
      | Success (next', result) =>
          loop fuel' parserA next' (results ++ [result])
      | Failure _ => Some (success (next, results))
      end
  end.

Definition oneOrMore {A} (fuel : nat) (parserA : Parser A) : Parser (list A) :=
  makeParser (fun input =>
    res <- parse parserA input ;;
    match res with
    | Failure e => Some (Failure e)
    | Success (next, result) => loop fuel parserA next [result]
    end).

Definition zeroOrMore {A} (fuel : nat) (parserA : Parser A) : Parser (list A) :=
  makeParser (fun input => loop fuel parserA input []).

(** [input.slice(0, length)] is [firstn], [input.slice(length)] is
    [skipn]; [null] is [None]. *)
Definition splitString (input : jsstring) (length : nat)
  : option jsstring * jsstring :=
  let match_ := firstn length input in
  let actualMatch :=
    if length <=? List.length match_ then Some match_ else None in
  let rest := skipn length input in
  (actualMatch, rest).

Definition anyChar : Parser jsstring :=
  makeParser (fun input =>
    let '(match_, rest) := splitString input 1 in
    match match_ with
    | Some m => Some (success (rest, m))
    | None => Some (failure input)
    end).

Definition pred {A} (parser : Parser A) (predicate : A -> bool) : Parser A :=
  makeParser (fun input =>
    result <- parse parser input ;;
    match result with
    | Failure e => Some (Failure e)
    | Success (rest, a) =>
        if predicate a then Some (success (rest, a))
        else Some (failure input)
    end).

Definition matchLiteral (lit : jsstring) : Parser jsstring :=
  makeParser (fun input =>
    let '(match_, rest) := splitString input (List.length lit) in
    let same :=
      match match_ with Some m => streq m lit | None => false end in
    if same then Some (success (rest, lit)) else Some (failure input)).

(** [char.charCodeAt(0)] is NaN on the empty string, and every comparison
    with NaN is false. *)
Definition isAlphaNumeric (char : jsstring) : bool :=
  match char with
  | [] => false
  | code :: _ =>
      ((47 <? code) && (code <? 58)
       || (64 <? code) && (code <? 91)
       || (96 <? code) && (code <? 123))%N
  end.

Definition alphaNumeric : Parser jsstring := pred anyChar isAlphaNumeric.

Definition whitespace : Parser jsstring :=
  pred anyChar (fun a => streq (trim a) []).

Definition either {A} (parser1 parser2 : Parser A) : Parser A :=
  makeParser (fun input =>
    resultA <- parse parser1 input ;;
    match resultA with
    | Success v => Some (Success v)
    | Failure _ => parse parser2 input
    end).

Definition andThen {A B} (parserA : Parser A) (thenParserB : A -> Parser B)
  : Parser B :=
  makeParser (fun input =>
    result <- parse parserA input ;;
    match result with
    | Failure e => Some (Failure e)
    | Success (next, a) => parse (thenParserB a) next
    end).

Inductive Element : Type :=
  mkElement (name : jsstring) (attributes : list (jsstring * jsstring))
            (children : list Element).

Definition el_name (el : Element) : jsstring :=
  match el with mkElement name _ _ => name end.

Definition el_attributes (el : Element) : list (jsstring * jsstring) :=
  match el with mkElement _ attributes _ => attributes end.

Definition runParser {A} (parser : Parser A) (input : jsstring)
  : option (ParserResult A) := parse parser input.

(** The lexical parsers and the markup grammar; every loop in them gets
    the same budget [fuel]. *)
Section Grammar.

Variable fuel : nat.

Definition identifier : Parser jsstring :=
  map (oneOrMore fuel alphaNumeric) (fun as_ => join as_).

Definition space0 : Parser (list jsstring) := zeroOrMore fuel whitespace.

Definition space1 : Parser (list jsstring) := oneOrMore fuel whitespace.

Definition stringBetween (startChar endChar : jsstring) : Parser jsstring :=
  map
    (right
       (matchLiteral startChar)
       (left
          (zeroOrMore fuel
             (pred anyChar
                (fun c => negb (streq c startChar)
                          && negb (streq c endChar))))
          (matchLiteral endChar)))
    (fun as_ => join as_).

(** Code unit 34 is the double quote. *)
Definition quotedString : Parser jsstring :=
  stringBetween [34%N] [34%N].

Definition attributePair : Parser (jsstring * jsstring) :=
  pair identifier (right (matchLiteral (str "=")) quotedString).

Definition attributes : Parser (list (jsstring * jsstring)) :=
  zeroOrMore fuel (right space1 attributePair).

Definition elementStart
  : Parser (jsstring * list (jsstring * jsstring)) :=
  right (matchLiteral (str "<")) (pair identifier attributes).

Definition singleElement : Parser Element :=
  map (left elementStart (matchLiteral (str "/>")))
      (fun '(name, attributes) => mkElement name attributes []).

Definition openElement : Parser Element :=
  map (left elementStart (matchLiteral (str ">")))
      (fun '(name, attributes) => mkElement name attributes []).

Definition closeElement (expectedName : jsstring) : Parser jsstring :=
  pred
    (right (matchLiteral (str "</")) (left identifier (matchLiteral (str ">"))))
    (fun name => streq name expectedName).

(** The parser that the call [element()] in the continuation returns. *)
Variable element : Parser Element.

Definition parentElement : Parser Element :=
  andThen openElement
    (fun el =>
       map (left (zeroOrMore fuel element) (closeElement (el_name el)))
           (fun children =>
              mkElement (el_name el) (el_attributes el) children)).

End Grammar.

(** [element()] nested [fuel] calls deep; at depth zero the budget is
    used up. *)
Fixpoint element (fuel : nat) : Parser Element :=
  match fuel with
  | O => makeParser (fun _ => None)
  | S fuel' =>
      either (singleElement fuel) (parentElement fuel (element fuel'))
  end.

End P.

Import P.

(** * Predicates on parsers *)

(** A success always leaves strictly less input than it was given. *)
Definition consuming {A} (p : Parser A) : Prop :=
  forall input rest a,
    parse p input = Some (Success (rest, a)) -> length rest < length input.

(** The primitive parsers: [anyChar], [matchLiteral lit] for the literals
    [lit] in [L], and [pred] applied to a primitive. *)
Inductive primitive (L : jsstring -> Prop) : Parser jsstring -> Prop :=
| prim_anyChar : primitive L anyChar
| prim_matchLiteral (lit : jsstring) : L lit -> primitive L (matchLiteral lit)
| prim_pred (p : Parser jsstring) (predicate : jsstring -> bool) :
    primitive L p -> primitive L (pred p predicate).

(** [e] is what is left of [input] after some prefix of it. *)
Definition is_suffix (e input : jsstring) : Prop :=
  exists consumed, input = consumed ++ e.

(** The parsers built from the supplied primitives and combinators; with
    [seq = false], those built without the sequencing combinators [pair],
    [left], [right] and [andThen]. *)
Inductive built (seq : bool) : forall A : Type, Parser A -> Prop :=
| built_anyChar : built seq anyChar
| built_matchLiteral (lit : jsstring) : built seq (matchLiteral lit)
| built_pred {A} (p : Parser A) (predicate : A -> bool) :
    built seq p -> built seq (pred p predicate)
| built_map {A B} (p : Parser A) (f : A -> B) :
    built seq p -> built seq (map p f)
| built_oneOrMore {A} (fuel : nat) (p : Parser A) :
    built seq p -> built seq (oneOrMore fuel p)
| built_zeroOrMore {A} (fuel : nat) (p : Parser A) :
    built seq p -> built seq (zeroOrMore fuel p)
| built_either {A} (p q : Parser A) :
    built seq p -> built seq q -> built seq (either p q)
| built_pair {A B} (p : Parser A) (q : Parser B) :
    seq = true -> built seq p -> built seq q -> built seq (pair p q)
| built_left {A B} (p : Parser A) (q : Parser B) :
    seq = true -> built seq p -> built seq q -> built seq (left p q)
| built_right {A B} (p : Parser A) (q : Parser B) :
    seq = true -> built seq p -> built seq q -> built seq (right p q)
| built_andThen {A B} (p : Parser A) (k : A -> Parser B) :
    seq = true -> built seq p -> (forall a, built seq (k a)) ->
    built seq (andThen p k).

(** A failure of [p] carries the input [p] was given. *)
Definition fails_at_input {A} (p : Parser A) : Prop :=
  forall input e, parse p input = Some (Failure e) -> e = input.

(** The remainder of a success and the error of a failure are both what is
    left of the input after some prefix. *)
Definition positional {A} (p : Parser A) : Prop :=
  forall input,
    match parse p input with
    | Some (Success (rest, _)) => is_suffix rest input
    | Some (Failure e) => is_suffix e input
    | None => True
    end.

(** [q] returns whatever [p] returns: [q] is [p] with at least as much
    budget. *)
Definition refines {A} (p q : Parser A) : Prop :=
  forall input r, parse p input = Some r -> parse q input = Some r.

(** [p] returns on every input shorter than [n]. *)
Definition returns_below {A} (n : nat) (p : Parser A) : Prop :=
  forall input, length input < n -> exists r, parse p input = Some r.

(** The double quote character, and the two-element document of the
    test suite, [<div class="float"><img src="hello.jpg"/></div>]. *)
Definition dquote : jsstring := [34%N].

Definition nested_document : jsstring :=
  str "<div class=" ++ dquote ++ str "float" ++ dquote
  ++ str "><img src=" ++ dquote ++ str "hello.jpg" ++ dquote
  ++ str "/></div>".

Definition nested_element : Element :=
  mkElement (str "div") [(str "class", str "float")]
    [mkElement (str "img") [(str "src", str "hello.jpg")] []].

(** [run_of p input vs rest]: [p] succeeds [length vs] times in a row from
    [input], each time on the remainder of the time before, with the values
    [vs], and then fails on [rest]. *)
Inductive run_of {A} (p : Parser A) : jsstring -> list A -> jsstring -> Prop :=
| run_stop (input : jsstring) (e : Error) :
    parse p input = Some (Failure e) -> run_of p input [] input
| run_step (input next rest : jsstring) (a : A) (vs : list A) :
    parse p input = Some (Success (next, a)) ->
    run_of p next vs rest ->
    run_of p input (a :: vs) rest.

(** The first code unit of [s] satisfies [f]; false on the empty string. *)
Definition starts_with (f : jsstring -> bool) (s : jsstring) : bool :=
  match s with
  | [] => false
  | c :: _ => f [c]
  end.

(** Every code unit of [s], as a one-unit string, satisfies [f]. *)
Definition all_units (f : jsstring -> bool) (s : jsstring) : bool :=
  List.forallb (fun c => f [c]) s.

(** The code units of [s], each as a string of its own. *)
Definition units (s : jsstring) : list jsstring :=
  List.map (fun c => [c]) s.

(** A non-empty string of letters and digits. *)
Definition is_identifier (s : jsstring) : Prop :=
  s <> [] /\ all_units isAlphaNumeric s = true.

(** The text of an element, in the form the grammar reads back: one space
    before each attribute, [/>] for an element without children. *)
Definition render_attribute (attribute : jsstring * jsstring) : jsstring :=
  str " " ++ fst attribute ++ str "=" ++ dquote ++ snd attribute ++ dquote.

Definition render_attributes (attributes : list (jsstring * jsstring))
  : jsstring :=
  List.concat (List.map render_attribute attributes).

Fixpoint render (el : Element) : jsstring :=
  match el with
  | mkElement name attributes children =>
      match children with
      | [] => str "<" ++ name ++ render_attributes attributes ++ str "/>"
      | _ :: _ =>
          str "<" ++ name ++ render_attributes attributes ++ str ">"
          ++ List.concat (List.map render children)
          ++ str "</" ++ name ++ str ">"
      end
  end.

(** The attributes and elements the grammar can read back: names of
    letters and digits, values without a double quote. *)
Definition well_formed_attribute (attribute : jsstring * jsstring) : Prop :=
  is_identifier (fst attribute) /\ ~ In 34%N (snd attribute).

Inductive well_formed : Element -> Prop :=
| well_formed_element (name : jsstring)
    (attributes : list (jsstring * jsstring)) (children : list Element) :
    is_identifier name ->
    Forall well_formed_attribute attributes ->
    Forall well_formed children ->
    well_formed (mkElement name attributes children).

(** * Properties *)

(** ** The test suite of the repository, run on the embedding *)

Example test_letter_a_fails :
  runParser (matchLiteral (str "a")) (str "poo") = Some (failure (str "poo")).
Proof. reflexivity. Qed.

Example test_letter_a_succeeds :
  runParser (matchLiteral (str "a")) (str "apoo")
  = Some (success (str "poo", str "a")).
Proof. reflexivity. Qed.

Example test_andA_fails :
  runParser (right (matchLiteral (str "&")) (matchLiteral (str "a"))) (str "&b")
  = Some (failure (str "b")).
Proof. reflexivity. Qed.

Example test_andA_succeeds :
  runParser (right (matchLiteral (str "&")) (matchLiteral (str "a")))
    (str "&ayeah")
  = Some (success (str "yeah", str "a")).
Proof. reflexivity. Qed.

Example test_dddd_fails :
  runParser (oneOrMore 8 (matchLiteral (str "d"))) (str "&b")
  = Some (failure (str "&b")).
Proof. reflexivity. Qed.

Example test_dddd_succeeds :
  runParser (oneOrMore 8 (matchLiteral (str "d"))) (str "ddddog")
  = Some (success (str "og", [str "d"; str "d"; str "d"; str "d"])).
Proof. reflexivity. Qed.

Example test_spaces_zero :
  runParser (zeroOrMore 8 (matchLiteral (str " "))) (str "dog")
  = Some (success (str "dog", [])).
Proof. reflexivity. Qed.

Example test_spaces_some :
  runParser (zeroOrMore 8 (matchLiteral (str " "))) (str "  dog")
  = Some (success (str "dog", [str " "; str " "])).
Proof. reflexivity. Qed.

Example test_two_letters_fails :
  runParser (pair anyChar anyChar) (str "o") = Some (failure []).
Proof. reflexivity. Qed.

Example test_two_letters_succeeds :
  runParser (pair anyChar anyChar) (str "ok")
  = Some (success ([], (str "o", str "k"))).
Proof. reflexivity. Qed.

Example test_not_whitespace :
  runParser whitespace (str "dog") = Some (failure (str "dog")).
Proof. reflexivity. Qed.

Example test_whitespace :
  runParser whitespace (str " dog") = Some (success (str "dog", str " ")).
Proof. reflexivity. Qed.

Example test_space0 :
  runParser (space0 8) (str "anythingwhatsoever")
  = Some (success (str "anythingwhatsoever", [])).
Proof. reflexivity. Qed.

Example test_space1_fails :
  runParser (space1 8) (str "nope") = Some (failure (str "nope")).
Proof. reflexivity. Qed.

Example test_space1_succeeds :
  runParser (space1 8) (str "  nope")
  = Some (success (str "nope", [str " "; str " "])).
Proof. reflexivity. Qed.

Example test_quoted_string :
  runParser (quotedString 8) (dquote ++ str "dog" ++ dquote)
  = Some (success ([], str "dog")).
Proof. reflexivity. Qed.

Example test_html_tag_fails :
  runParser (stringBetween 8 (str "<") (str ">")) (str "<<what>")
  = Some (failure (str "<what>")).
Proof. reflexivity. Qed.

Example test_html_tag_succeeds :
  runParser (stringBetween 8 (str "<") (str ">")) (str "<what>")
  = Some (success ([], str "what")).
Proof. reflexivity. Qed.

Example test_identifier_fails :
  runParser (identifier 8) (str "----") = Some (failure (str "----")).
Proof. reflexivity. Qed.

Example test_identifier_succeeds :
  runParser (identifier 8) (str "horse") = Some (success ([], str "horse")).
Proof. reflexivity. Qed.

Example test_attribute_pair :
  runParser (attributePair 8) (str "dog=" ++ dquote ++ str "poo" ++ dquote)
  = Some (success ([], (str "dog", str "poo"))).
Proof. reflexivity. Qed.

Example test_attributes :
  runParser (attributes 8)
    (str " dog=" ++ dquote ++ str "yes" ++ dquote
     ++ str " cat=" ++ dquote ++ str "no" ++ dquote)
  = Some (success ([], [(str "dog", str "yes"); (str "cat", str "no")])).
Proof. reflexivity. Qed.

Example test_element :
  runParser (element 8)
    (str "<div class=" ++ dquote ++ str "float" ++ dquote ++ str "/>")
  = Some (success
            ([], mkElement (str "div") [(str "class", str "float")] [])).
Proof. reflexivity. Qed.

(** ** Strings *)

Lemma streq_true_iff (a b : jsstring) : streq a b = true <-> a = b.
Proof.
  revert b; induction a as [|x a IH]; intros [|y b]; simpl;
    try (split; [discriminate | congruence]); try tauto.
  rewrite andb_true_iff, N.eqb_eq, IH.
  split; [intros [-> ->]; reflexivity | intros H; injection H; auto].
Qed.

Lemma streq_refl (a : jsstring) : streq a a = true.
Proof. apply streq_true_iff; reflexivity. Qed.

Lemma streq_false_iff (a b : jsstring) : streq a b = false <-> a <> b.
Proof.
  rewrite <- streq_true_iff.
  destruct (streq a b); split; congruence.
Qed.

(** ** [splitString] *)

Lemma splitString_long (input : jsstring) (n : nat) :
  n <= length input ->
  splitString input n = (Some (firstn n input), skipn n input).
Proof.
  intros H; unfold splitString.
  rewrite firstn_length_le by exact H.
  rewrite Nat.leb_refl; reflexivity.
Qed.

Lemma splitString_short (input : jsstring) (n : nat) :
  length input < n ->
  splitString input n = (None, skipn n input).
Proof.
  intros H; unfold splitString.
  rewrite firstn_all2 by lia.
  destruct (Nat.leb_spec n (length input)); [lia | reflexivity].
Qed.

Lemma prefix_firstn (lit input : jsstring) :
  firstn (length lit) input = lit <-> exists rest, input = lit ++ rest.
Proof.
  split.
  - intros H; exists (skipn (length lit) input).
    rewrite <- H at 1; symmetry; apply firstn_skipn.
  - intros [rest ->].
    rewrite firstn_app, Nat.sub_diag, firstn_all; simpl.
    apply app_nil_r.
Qed.

(** What [matchLiteral] returns, by cases on the prefix. *)
Lemma matchLiteral_eq (lit input : jsstring) :
  parse (matchLiteral lit) input =
    if streq (firstn (length lit) input) lit
    then Some (Success (skipn (length lit) input, lit))
    else Some (Failure input).
Proof.
  unfold matchLiteral; cbn [parse].
  destruct (Nat.le_gt_cases (length lit) (length input)) as [Hle|Hlt].
  - rewrite splitString_long by exact Hle; reflexivity.
  - rewrite splitString_short by exact Hlt.
    replace (streq (firstn (length lit) input) lit) with false; [reflexivity|].
    symmetry; apply streq_false_iff; intros Heq.
    apply (f_equal (@length _)) in Heq.
    rewrite firstn_all2 in Heq by lia; lia.
Qed.

Lemma anyChar_eq (input : jsstring) :
  parse anyChar input =
    match input with
    | [] => Some (Failure [])
    | c :: rest => Some (Success (rest, [c]))
    end.
Proof. destruct input; reflexivity. Qed.

(** ** [R.all] *)

Section AllLaws.

Variables E A : Type.

(** The fold of [R.all], started from an arbitrary accumulator. *)
Let all_from (total : Result E (list A)) (results : list (Result E A)) :=
  List.fold_left
    (fun (total : Result E (list A)) (val : Result E A) =>
       match total with
       | Failure e => Failure e
       | Success vs =>
           matchResult (fun e => failure e)
                       (fun a => success (vs ++ [a])) val
       end)
    results total.

Lemma all_from_failure (e : E) (results : list (Result E A)) :
  all_from (Failure e) results = Failure e.
Proof. induction results as [|r results IH]; simpl; auto. Qed.

Lemma all_from_successes (acc vs : list A) (rest : list (Result E A)) :
  all_from (Success acc) (List.map Success vs ++ rest)
  = all_from (Success (acc ++ vs)) rest.
Proof.
  revert acc; induction vs as [|v vs IH]; intros acc; simpl.
  - rewrite app_nil_r; reflexivity.
  - unfold success; rewrite (IH (acc ++ [v])), <- app_assoc; reflexivity.
Qed.

(** A list of results is all successes, or has a first failure. *)
Lemma results_cases (results : list (Result E A)) :
  (exists vs, results = List.map Success vs)
  \/ (exists vs e rest, results = List.map Success vs ++ Failure e :: rest).
Proof.
  induction results as [|r results [[vs ->]|(vs & e & rest & ->)]].
  - left; exists []; reflexivity.
  - destruct r as [e|v].
    + right; exists [], e, (List.map Success vs); reflexivity.
    + left; exists (v :: vs); reflexivity.
  - destruct r as [e'|v].
    + right; exists [], e', (List.map Success vs ++ Failure e :: rest);
        reflexivity.
    + right; exists (v :: vs), e, rest; reflexivity.
Qed.

Lemma all_successes (vs : list A) :
  R.all (List.map (@Success E A) vs) = Success vs.
Proof.
  change (all_from (Success []) (List.map Success vs) = Success vs).
  rewrite <- (app_nil_r (List.map Success vs)).
  apply (all_from_successes [] vs []).
Qed.

Lemma all_first_failure (vs : list A) (e : E) (rest : list (Result E A)) :
  R.all (List.map Success vs ++ Failure e :: rest) = Failure e.
Proof.
  change (all_from (Success [])
            (List.map Success vs ++ Failure e :: rest) = Failure e).
  rewrite all_from_successes; simpl.
  apply all_from_failure.
Qed.

End AllLaws.

(** C9: [all results] is the success of the payloads, in order, exactly
    when every element of [results] is a success; otherwise it is the
    first failure met from the left; and [all []] is the success of the
    empty list. *)
Theorem all_collects_or_first_failure (E A : Type) :
  R.all (@nil (Result E A)) = Success []
  /\ (forall vs : list A, R.all (List.map (@Success E A) vs) = Success vs)
  /\ (forall (vs : list A) (e : E) (rest : list (Result E A)),
         R.all (List.map Success vs ++ Failure e :: rest) = Failure e)
  /\ (forall (results : list (Result E A)) (vs : list A),
         R.all results = Success vs <-> results = List.map Success vs)
  /\ (forall results : list (Result E A),
         (exists vs, R.all results = Success vs)
         <-> Forall (fun r => isSuccess r = true) results).
Proof.
  split; [reflexivity|].
  split; [apply all_successes|].
  split; [apply all_first_failure|].
  assert (Hiff : forall (results : list (Result E A)) (vs : list A),
             R.all results = Success vs <-> results = List.map Success vs).
  { intros results vs; split.
    - destruct (results_cases results) as [[ws ->]|(ws & e & rest & ->)].
      + rewrite all_successes; congruence.
      + rewrite all_first_failure; discriminate.
    - intros ->; apply all_successes. }
  split; [exact Hiff|].
  intros results; split.
  - intros [vs H]; apply Hiff in H; subst results.
    induction vs; simpl; constructor; auto.
  - intros H.
    destruct (results_cases results) as [[ws ->]|(ws & e & rest & ->)].
    + exists ws; apply all_successes.
    + apply Forall_app in H; destruct H as [_ H].
      inversion H; subst; discriminate.
Qed.

(** ** [matchLiteral] *)

(** C7: [matchLiteral lit] succeeds exactly when the first [|lit|] code
    units of the input are [lit]; it then returns [lit] and leaves the input
    without that prefix.  Otherwise, and so on every input shorter than
    [lit], it fails with the whole input. *)
Theorem matchLiteral_exact (lit input : jsstring) :
  (firstn (length lit) input = lit <->
     exists rest v, parse (matchLiteral lit) input = Some (Success (rest, v)))
  /\ (forall rest v,
         parse (matchLiteral lit) input = Some (Success (rest, v)) ->
         v = lit /\ input = lit ++ rest
         /\ length input = length lit + length rest)
  /\ (firstn (length lit) input <> lit ->
         parse (matchLiteral lit) input = Some (Failure input))
  /\ (length input < length lit ->
         parse (matchLiteral lit) input = Some (Failure input)).
Proof.
  rewrite matchLiteral_eq.
  destruct (streq (firstn (length lit) input) lit) eqn:Heq.
  - apply streq_true_iff in Heq.
    split; [split; [eauto | intros _; exact Heq]|].
    split.
    + intros rest v H; injection H as <- <-.
      split; [reflexivity|].
      assert (Hin : input = lit ++ skipn (length lit) input).
      { rewrite <- (firstn_skipn (length lit) input) at 1.
        rewrite Heq; reflexivity. }
      split; [exact Hin|].
      rewrite Hin at 1; apply length_app.
    + split; [congruence|].
      intros Hlt; apply (f_equal (@length _)) in Heq.
      rewrite firstn_all2 in Heq by lia; lia.
  - apply streq_false_iff in Heq.
    split; [split; [congruence | intros (rest & v & H); discriminate]|].
    split; [intros rest v H; discriminate|].
    split; reflexivity.
Qed.

Lemma matchLiteral_exact_witness :
  parse (matchLiteral (str "a")) (str "apoo")
    = Some (Success (str "poo", str "a"))
  /\ parse (matchLiteral (str "a")) (str "poo") = Some (Failure (str "poo"))
  /\ parse (matchLiteral (str "ab")) (str "a") = Some (Failure (str "a")).
Proof.
  split; [reflexivity|].
  split.
  - destruct (matchLiteral_exact (str "a") (str "poo")) as (_ & _ & H & _).
    apply H; simpl; discriminate.
  - destruct (matchLiteral_exact (str "ab") (str "a")) as (_ & _ & _ & H).
    apply H; simpl; lia.
Defined.

(** ** Primitives and consumption *)

Lemma anyChar_consuming : consuming anyChar.
Proof.
  intros input rest a; rewrite anyChar_eq.
  destruct input; intros H; [discriminate|].
  injection H as <- _; simpl; lia.
Qed.

Lemma matchLiteral_consuming (lit : jsstring) :
  lit <> [] -> consuming (matchLiteral lit).
Proof.
  intros Hne input rest a; rewrite matchLiteral_eq.
  destruct (streq _ lit) eqn:Heq; [|discriminate].
  intros H; injection H as <- _.
  apply streq_true_iff, (f_equal (@length _)) in Heq.
  rewrite length_skipn.
  rewrite length_firstn in Heq.
  assert (0 < length lit) by (destruct lit; [contradiction | simpl; lia]).
  lia.
Qed.

Lemma pred_success {A} (p : Parser A) (predicate : A -> bool) input rest a :
  parse (pred p predicate) input = Some (Success (rest, a)) ->
  parse p input = Some (Success (rest, a)) /\ predicate a = true.
Proof.
  simpl.
  destruct (parse p input) as [[e|[rest' a']]|]; try discriminate.
  destruct (predicate a') eqn:Hp; [|discriminate].
  intros H; injection H as <- <-; auto.
Qed.

Lemma pred_consuming {A} (p : Parser A) (predicate : A -> bool) :
  consuming p -> consuming (pred p predicate).
Proof.
  intros Hp input rest a H; apply pred_success in H.
  apply (Hp input rest a); tauto.
Qed.

(** C2, as stated: every supplied primitive, [matchLiteral] of any literal
    included, consumes on success.  The empty literal refutes it. *)
Lemma empty_literal_consumes_nothing :
  primitive (fun _ => True) (matchLiteral [])
  /\ parse (matchLiteral []) (str "abc") = Some (Success (str "abc", []))
  /\ ~ (forall p, primitive (fun _ => True) p -> consuming p).
Proof.
  split; [constructor; exact I|].
  split; [reflexivity|].
  intros H.
  specialize (H (matchLiteral []) (prim_matchLiteral (fun _ => True) [] I)
                (str "abc") (str "abc") [] eq_refl).
  simpl in H; lia.
Qed.

(** C2, amended: [anyChar], [matchLiteral lit] for a non-empty [lit], and
    [pred] applied to them leave strictly less input on success; and
    [matchLiteral] of the empty literal succeeds on every input and leaves
    it unchanged. *)
Theorem primitives_consume :
  (forall p : Parser jsstring,
      primitive (fun lit => lit <> []) p -> consuming p)
  /\ (forall input : jsstring,
         parse (matchLiteral []) input = Some (Success (input, []))).
Proof.
  split.
  - induction 1 as [|lit Hne|p predicate _ IH].
    + apply anyChar_consuming.
    + apply matchLiteral_consuming; exact Hne.
    + apply pred_consuming; exact IH.
  - intros input; rewrite matchLiteral_eq; reflexivity.
Qed.

Lemma primitives_consume_witness :
  consuming (pred (matchLiteral (str "p")) (fun _ => true))
  /\ parse (matchLiteral []) [] = Some (Success ([], [])).
Proof.
  split.
  - apply (proj1 primitives_consume).
    apply prim_pred, prim_matchLiteral; discriminate.
  - apply (proj2 primitives_consume).
Defined.

(** ** [pred] and [either] *)

(** C4: [pred] hands on a failure of the inner parser as it is, and when
    the predicate rejects the parsed value it fails with the input [pred]
    was given, whatever the inner parser had consumed. *)
Theorem pred_backtracks {A} (parser : Parser A) (predicate : A -> bool)
    (input : jsstring) :
  (forall e, parse parser input = Some (Failure e) ->
             parse (pred parser predicate) input = Some (Failure e))
  /\ (forall rest a, parse parser input = Some (Success (rest, a)) ->
                     predicate a = false ->
                     parse (pred parser predicate) input
                     = Some (Failure input)).
Proof.
  split.
  - intros e H; simpl; rewrite H; reflexivity.
  - intros rest a H Hp; simpl; rewrite H, Hp; reflexivity.
Qed.

Lemma pred_backtracks_witness :
  parse (pred (matchLiteral (str "do")) (fun _ => false)) (str "dog")
  = Some (Failure (str "dog"))
  /\ parse (pred (matchLiteral (str "do")) (fun _ => false)) (str "cat")
     = Some (Failure (str "cat")).
Proof.
  split.
  - apply (proj2 (pred_backtracks (matchLiteral (str "do")) (fun _ => false)
                    (str "dog")) (str "g") (str "do"));
      reflexivity.
  - apply (proj1 (pred_backtracks (matchLiteral (str "do")) (fun _ => false)
                    (str "cat")) (str "cat"));
      reflexivity.
Defined.

(** C3: [either] returns the first parser's result when that is a success,
    and otherwise the result of the second parser run on the same input
    that [either] was given. *)
Theorem either_ordered_choice {A} (parser1 parser2 : Parser A)
    (input : jsstring) :
  (forall v, parse parser1 input = Some (Success v) ->
             parse (either parser1 parser2) input = Some (Success v))
  /\ (forall e, parse parser1 input = Some (Failure e) ->
                parse (either parser1 parser2) input = parse parser2 input).
Proof.
  split; intros x H; simpl; rewrite H; reflexivity.
Qed.

Lemma either_ordered_choice_witness :
  parse (either anyChar (matchLiteral (str "ab"))) (str "abc")
  = Some (Success (str "bc", str "a"))
  /\ parse (either (pair anyChar (matchLiteral (str "x")))
                   (pair anyChar anyChar)) (str "abc")
     = parse (pair anyChar anyChar) (str "abc").
Proof.
  split.
  - apply (proj1 (either_ordered_choice anyChar (matchLiteral (str "ab"))
                    (str "abc")) (str "bc", str "a")).
    reflexivity.
  - apply (proj2 (either_ordered_choice (pair anyChar (matchLiteral (str "x")))
                    (pair anyChar anyChar) (str "abc")) (str "bc")).
    reflexivity.
Defined.

(** ** The repetition loop *)

Lemma loop_never_fails {A} (fuel : nat) (p : Parser A) :
  forall next results e, loop fuel p next results <> Some (Failure e).
Proof.
  induction fuel as [|fuel IH]; intros next results e; simpl.
  - discriminate.
  - destruct (parse p next) as [[e'|[next' result]]|].
    + discriminate.
    + apply IH.
    + discriminate.
Qed.

(** C10: where [p] succeeds on the input, [oneOrMore p] and [zeroOrMore p]
    run the same calls of [p] and return the same result: the loop of
    [zeroOrMore] makes as its first pass the call that [oneOrMore] makes
    before its loop. *)
Theorem oneOrMore_zeroOrMore_agree {A} (p : Parser A) (input : jsstring)
    (v : jsstring * A) :
  parse p input = Some (Success v) ->
  (forall fuel,
      parse (zeroOrMore (S fuel) p) input = parse (oneOrMore fuel p) input)
  /\ (forall r,
         (exists fuel, parse (zeroOrMore fuel p) input = Some r)
         <-> (exists fuel, parse (oneOrMore fuel p) input = Some r)).
Proof.
  intros H.
  assert (Hstep : forall fuel,
             parse (zeroOrMore (S fuel) p) input
             = parse (oneOrMore fuel p) input).
  { intros fuel; simpl; rewrite H; destruct v; reflexivity. }
  split; [exact Hstep|].
  intros r; split; intros [fuel Hr].
  - destruct fuel as [|fuel]; [discriminate|].
    exists fuel; rewrite <- Hstep; exact Hr.
  - exists (S fuel); rewrite Hstep; exact Hr.
Qed.

Lemma oneOrMore_zeroOrMore_agree_witness :
  parse (zeroOrMore 5 (matchLiteral (str "d"))) (str "ddddog")
  = parse (oneOrMore 4 (matchLiteral (str "d"))) (str "ddddog").
Proof.
  apply (proj1 (@oneOrMore_zeroOrMore_agree _ (matchLiteral (str "d"))
                  (str "ddddog") (str "dddog", str "d") eq_refl)).
Defined.

(** ** Where a failure points *)

Lemma is_suffix_refl (s : jsstring) : is_suffix s s.
Proof. exists []; reflexivity. Qed.

Lemma is_suffix_trans (a b c : jsstring) :
  is_suffix a b -> is_suffix b c -> is_suffix a c.
Proof.
  intros [x ->] [y ->]; exists (y ++ x); apply app_assoc.
Qed.

Lemma is_suffix_skipn (n : nat) (s : jsstring) : is_suffix (skipn n s) s.
Proof. exists (firstn n s); symmetry; apply firstn_skipn. Qed.

Create HintDb parser.
#[local] Hint Resolve is_suffix_refl is_suffix_skipn : parser.

Lemma anyChar_positional : positional anyChar.
Proof.
  intros input; rewrite anyChar_eq; destruct input as [|c rest].
  - apply is_suffix_refl.
  - exists [c]; reflexivity.
Qed.

Lemma matchLiteral_positional (lit : jsstring) : positional (matchLiteral lit).
Proof.
  intros input; rewrite matchLiteral_eq.
  destruct (streq _ lit); auto with parser.
Qed.

Lemma pred_positional {A} (p : Parser A) (predicate : A -> bool) :
  positional p -> positional (pred p predicate).
Proof.
  intros Hp input; specialize (Hp input); simpl.
  destruct (parse p input) as [[e|[rest a]]|]; auto.
  destruct (predicate a); simpl; auto with parser.
Qed.

Lemma map_positional {A B} (p : Parser A) (f : A -> B) :
  positional p -> positional (map p f).
Proof.
  intros Hp input; specialize (Hp input); simpl.
  destruct (parse p input) as [[e|[rest a]]|]; auto.
Qed.

Lemma pair_positional {A B} (p : Parser A) (q : Parser B) :
  positional p -> positional q -> positional (pair p q).
Proof.
  intros Hp Hq input; specialize (Hp input); simpl.
  destruct (parse p input) as [[e|[rest a]]|]; auto.
  specialize (Hq rest).
  destruct (parse q rest) as [[e|[restB b]]|]; simpl;
    eauto using is_suffix_trans.
Qed.

Lemma either_positional {A} (p q : Parser A) :
  positional p -> positional q -> positional (either p q).
Proof.
  intros Hp Hq input; specialize (Hp input); simpl.
  destruct (parse p input) as [[e|[rest a]]|]; auto.
  apply Hq.
Qed.

Lemma andThen_positional {A B} (p : Parser A) (k : A -> Parser B) :
  positional p -> (forall a, positional (k a)) -> positional (andThen p k).
Proof.
  intros Hp Hk input; specialize (Hp input); simpl.
  destruct (parse p input) as [[e|[next a]]|]; auto.
  specialize (Hk a next).
  destruct (parse (k a) next) as [[e|[rest b]]|];
    eauto using is_suffix_trans.
Qed.

Lemma loop_positional {A} (fuel : nat) (p : Parser A) :
  positional p ->
  forall input next results,
    is_suffix next input ->
    match loop fuel p next results with
    | Some (Success (rest, _)) => is_suffix rest input
    | Some (Failure e) => is_suffix e input
    | None => True
    end.
Proof.
  intros Hp input; induction fuel as [|fuel IH];
    intros next results Hnext; simpl; auto.
  specialize (Hp next).
  destruct (parse p next) as [[e|[next' result]]|]; simpl; auto.
  apply IH; eauto using is_suffix_trans.
Qed.

Lemma zeroOrMore_positional {A} (fuel : nat) (p : Parser A) :
  positional p -> positional (zeroOrMore fuel p).
Proof.
  intros Hp input; simpl; apply loop_positional; auto with parser.
Qed.

Lemma oneOrMore_positional {A} (fuel : nat) (p : Parser A) :
  positional p -> positional (oneOrMore fuel p).
Proof.
  intros Hp input; simpl; pose proof (Hp input) as Hi.
  destruct (parse p input) as [[e|[next result]]|]; auto.
  apply loop_positional; auto.
Qed.

Lemma built_positional {A} (p : Parser A) : built true p -> positional p.
Proof.
  induction 1;
    eauto using anyChar_positional, matchLiteral_positional, pred_positional,
      map_positional, oneOrMore_positional, zeroOrMore_positional,
      either_positional, pair_positional, andThen_positional.
Qed.

Lemma built_fails_at_input {A} (p : Parser A) :
  built false p -> fails_at_input p.
Proof.
  induction 1 as [ | lit | A p predicate _ IH | A B p f _ IH
                 | A fuel p _ IH | A fuel p _ IH | A p q _ IHp _ IHq
                 | | | | ];
    try discriminate; intros input e.
  - rewrite anyChar_eq; destruct input; congruence.
  - rewrite matchLiteral_eq; destruct (streq _ lit); congruence.
  - specialize (IH input); simpl.
    destruct (parse p input) as [[e'|[rest a]]|]; try discriminate.
    + intros H; injection H as <-; apply IH; reflexivity.
    + unfold success, failure; destruct (predicate a); congruence.
  - specialize (IH input); simpl.
    destruct (parse p input) as [[e'|[rest a]]|]; try discriminate.
    simpl; intros H; injection H as <-; apply IH; reflexivity.
  - specialize (IH input); simpl.
    destruct (parse p input) as [[e'|[rest a]]|]; try discriminate.
    + intros H; injection H as <-; apply IH; reflexivity.
    + intros H; exfalso; exact (loop_never_fails _ _ _ _ H).
  - simpl; intros H; exfalso; exact (loop_never_fails _ _ _ _ H).
  - simpl; destruct (parse p input) as [[e'|[rest a]]|]; try discriminate.
    apply IHq.
Qed.

(** C1, as stated: every failure of a parser built from the primitives and
    combinators carries the input the parser was given.  [pair] of two
    [anyChar] on a one-character input fails with the empty remainder. *)
Lemma pair_fails_at_remainder :
  built true (pair anyChar anyChar)
  /\ parse (pair anyChar anyChar) (str "o") = Some (Failure [])
  /\ ~ (forall (A : Type) (p : Parser A), built true p -> fails_at_input p).
Proof.
  assert (Hb : built true (pair anyChar anyChar))
    by (apply built_pair; [reflexivity | constructor | constructor]).
  split; [exact Hb|].
  split; [reflexivity|].
  intros H.
  specialize (H _ _ Hb (str "o") [] eq_refl); discriminate.
Qed.

(** C1, amended: a failure of a parser built without [pair], [left],
    [right] and [andThen] carries the input the parser was given; a failure
    of any built parser carries what is left of that input after a prefix.
    The sequencing combinators return a failure of either stage as it is:
    the second stage runs on the remainder of the first, and its failure is
    the result. *)
Theorem failure_position :
  (forall (A : Type) (p : Parser A), built false p -> fails_at_input p)
  /\ (forall (A : Type) (p : Parser A),
         built true p ->
         forall input e, parse p input = Some (Failure e) ->
                         is_suffix e input)
  /\ (forall (A B : Type) (pa : Parser A) (pb : Parser B)
             (k : A -> Parser B) input e,
         parse pa input = Some (Failure e) ->
         parse (pair pa pb) input = Some (Failure e)
         /\ parse (left pa pb) input = Some (Failure e)
         /\ parse (right pa pb) input = Some (Failure e)
         /\ parse (andThen pa k) input = Some (Failure e))
  /\ (forall (A B : Type) (pa : Parser A) (pb : Parser B) input rest a e,
         parse pa input = Some (Success (rest, a)) ->
         parse pb rest = Some (Failure e) ->
         parse (pair pa pb) input = Some (Failure e)
         /\ parse (left pa pb) input = Some (Failure e)
         /\ parse (right pa pb) input = Some (Failure e))
  /\ (forall (A B : Type) (pa : Parser A) (k : A -> Parser B) input next a,
         parse pa input = Some (Success (next, a)) ->
         parse (andThen pa k) input = parse (k a) next).
Proof.
  split; [intros A p; apply built_fails_at_input|].
  split.
  { intros A p Hb input e H.
    pose proof (built_positional Hb input) as Hp.
    rewrite H in Hp; exact Hp. }
  split.
  { intros A B pa pb k input e H; simpl; rewrite H; auto. }
  split.
  { intros A B pa pb input rest a e Ha Hb; simpl; rewrite Ha, Hb; auto. }
  intros A B pa k input next a H; simpl; rewrite H; reflexivity.
Qed.

Lemma failure_position_witness :
  parse (right (matchLiteral (str "&")) (matchLiteral (str "a"))) (str "&b")
  = Some (Failure (str "b"))
  /\ is_suffix (str "b") (str "&b").
Proof.
  destruct failure_position as (_ & Hsuffix & _ & Hsecond & _).
  assert (H : parse (right (matchLiteral (str "&")) (matchLiteral (str "a")))
                (str "&b") = Some (Failure (str "b"))).
  { apply (Hsecond _ _ (matchLiteral (str "&")) (matchLiteral (str "a"))
             (str "&b") (str "b") (str "&") (str "b"));
      reflexivity. }
  split; [exact H|].
  apply (Hsuffix _ (right (matchLiteral (str "&")) (matchLiteral (str "a")))).
  - apply built_right; [reflexivity | constructor | constructor].
  - exact H.
Defined.

(** ** More budget, same result *)

Section Refinement.

Context {A B : Type}.

(** Case analysis on the call of a sub-parser that is refined. *)
Ltac sub_call p Hp input :=
  let H := fresh "Hcall" in
  destruct (parse p input) as [[?e|[?rest ?a]]|] eqn:H;
    [ rewrite (Hp _ _ H) | rewrite (Hp _ _ H) | discriminate ].

Lemma refines_refl (p : Parser A) : refines p p.
Proof. intros input r H; exact H. Qed.

Lemma map_refines (p p' : Parser A) (f : A -> B) :
  refines p p' -> refines (map p f) (map p' f).
Proof.
  intros Hp input r; simpl.
  sub_call p Hp input; auto.
Qed.

Lemma pair_refines (p p' : Parser A) (q q' : Parser B) :
  refines p p' -> refines q q' -> refines (pair p q) (pair p' q').
Proof.
  intros Hp Hq input r; simpl.
  sub_call p Hp input; auto.
  sub_call q Hq rest; auto.
Qed.

Lemma pred_refines (p p' : Parser A) (predicate : A -> bool) :
  refines p p' -> refines (pred p predicate) (pred p' predicate).
Proof.
  intros Hp input r; simpl.
  sub_call p Hp input; auto.
Qed.

Lemma either_refines (p p' q q' : Parser A) :
  refines p p' -> refines q q' -> refines (either p q) (either p' q').
Proof.
  intros Hp Hq input r; simpl.
  sub_call p Hp input; auto.
Qed.

Lemma andThen_refines (p p' : Parser A) (k k' : A -> Parser B) :
  refines p p' -> (forall a, refines (k a) (k' a)) ->
  refines (andThen p k) (andThen p' k').
Proof.
  intros Hp Hk input r; simpl.
  sub_call p Hp input; auto.
  apply Hk.
Qed.

Lemma loop_refines (p p' : Parser A) (n m : nat) :
  refines p p' -> n <= m ->
  forall next results r,
    loop n p next results = Some r -> loop m p' next results = Some r.
Proof.
  intros Hp; revert m; induction n as [|n IH]; intros m Hle next results r;
    simpl; [discriminate|].
  destruct m as [|m]; [lia|]; simpl.
  sub_call p Hp next; auto.
  apply IH; lia.
Qed.

Lemma zeroOrMore_refines (p p' : Parser A) (n m : nat) :
  refines p p' -> n <= m -> refines (zeroOrMore n p) (zeroOrMore m p').
Proof.
  intros Hp Hle input r; simpl; apply loop_refines; assumption.
Qed.

Lemma oneOrMore_refines (p p' : Parser A) (n m : nat) :
  refines p p' -> n <= m -> refines (oneOrMore n p) (oneOrMore m p').
Proof.
  intros Hp Hle input r; simpl.
  sub_call p Hp input; auto.
  apply loop_refines; assumption.
Qed.

End Refinement.

Lemma left_refines {A B} (p p' : Parser A) (q q' : Parser B) :
  refines p p' -> refines q q' -> refines (left p q) (left p' q').
Proof. intros; apply map_refines, pair_refines; assumption. Qed.

Lemma right_refines {A B} (p p' : Parser A) (q q' : Parser B) :
  refines p p' -> refines q q' -> refines (right p q) (right p' q').
Proof. intros; apply map_refines, pair_refines; assumption. Qed.

#[local] Hint Resolve refines_refl map_refines pair_refines pred_refines
  either_refines andThen_refines zeroOrMore_refines oneOrMore_refines
  left_refines right_refines : parser.

Section GrammarRefinement.

Variables n m : nat.
Hypothesis Hle : n <= m.

Lemma identifier_refines : refines (identifier n) (identifier m).
Proof. unfold identifier; auto with parser. Qed.

Lemma space1_refines : refines (space1 n) (space1 m).
Proof. unfold space1; auto with parser. Qed.

Lemma stringBetween_refines (startChar endChar : jsstring) :
  refines (stringBetween n startChar endChar)
          (stringBetween m startChar endChar).
Proof. unfold stringBetween; auto 8 with parser. Qed.

Lemma attributePair_refines : refines (attributePair n) (attributePair m).
Proof.
  unfold attributePair, quotedString.
  auto using identifier_refines, stringBetween_refines with parser.
Qed.

Lemma attributes_refines : refines (attributes n) (attributes m).
Proof.
  unfold attributes.
  auto using space1_refines, attributePair_refines with parser.
Qed.

Lemma elementStart_refines : refines (elementStart n) (elementStart m).
Proof.
  unfold elementStart.
  auto using identifier_refines, attributes_refines with parser.
Qed.

Lemma singleElement_refines : refines (singleElement n) (singleElement m).
Proof.
  unfold singleElement; auto using elementStart_refines with parser.
Qed.

Lemma openElement_refines : refines (openElement n) (openElement m).
Proof.
  unfold openElement; auto using elementStart_refines with parser.
Qed.

Lemma closeElement_refines (expectedName : jsstring) :
  refines (closeElement n expectedName) (closeElement m expectedName).
Proof.
  unfold closeElement; auto using identifier_refines with parser.
Qed.

Lemma parentElement_refines (e e' : Parser Element) :
  refines e e' -> refines (parentElement n e) (parentElement m e').
Proof.
  intros He; unfold parentElement.
  apply andThen_refines; [apply openElement_refines|].
  intros el.
  auto using closeElement_refines with parser.
Qed.

End GrammarRefinement.

Lemma element_refines (n m : nat) :
  n <= m -> refines (element n) (element m).
Proof.
  revert m; induction n as [|n IH]; intros m Hle.
  - intros input r; discriminate.
  - destruct m as [|m]; [lia|].
    change (refines
              (either (singleElement (S n)) (parentElement (S n) (element n)))
              (either (singleElement (S m)) (parentElement (S m) (element m)))).
    apply either_refines.
    + apply singleElement_refines; exact Hle.
    + apply parentElement_refines; [exact Hle | apply IH; lia].
Qed.

(** ** The nested document of the test suite *)

(** C5: [element()] on [<div class="float"><img src="hello.jpg"/></div>]
    returns the element [div] with the attribute [class="float"] and the one
    child [img] with the attribute [src="hello.jpg"] and no children, and
    leaves no input. *)
Theorem element_parses_nested_document (fuel : nat) :
  11 <= fuel ->
  runParser (element fuel) nested_document
  = Some (Success ([], nested_element)).
Proof.
  intros Hle; unfold runParser.
  apply (element_refines Hle).
  vm_compute; reflexivity.
Qed.

Lemma element_parses_nested_document_witness :
  runParser (element 48) nested_document
  = Some (Success ([], nested_element)).
Proof.
  apply element_parses_nested_document; lia.
Defined.

(** ** Consumption *)

Lemma is_suffix_length (a b : jsstring) :
  is_suffix a b -> length a <= length b.
Proof. intros [x ->]; rewrite length_app; lia. Qed.

Lemma positional_le {A} (p : Parser A) :
  positional p ->
  forall input rest a,
    parse p input = Some (Success (rest, a)) -> length rest <= length input.
Proof.
  intros Hp input rest a H; specialize (Hp input); rewrite H in Hp.
  apply is_suffix_length; exact Hp.
Qed.

Section Consumption.

Context {A B : Type}.

Lemma map_consuming (p : Parser A) (f : A -> B) :
  consuming p -> consuming (map p f).
Proof.
  intros Hp input rest b; simpl.
  destruct (parse p input) as [[e|[rest' a]]|] eqn:H; simpl;
    try discriminate.
  intros Heq; injection Heq as <- _; eauto.
Qed.

Lemma pair_consuming (p : Parser A) (q : Parser B) :
  consuming p -> positional q -> consuming (pair p q).
Proof.
  intros Hp Hq input rest [a b]; simpl.
  destruct (parse p input) as [[e|[rest' a']]|] eqn:Ha; try discriminate.
  destruct (parse q rest') as [[e|[restB b']]|] eqn:Hb; try discriminate.
  intros Heq; injection Heq as <- _ _.
  apply Hp in Ha; apply (positional_le Hq) in Hb; lia.
Qed.

Lemma either_consuming (p q : Parser A) :
  consuming p -> consuming q -> consuming (either p q).
Proof.
  intros Hp Hq input rest a; simpl.
  destruct (parse p input) as [[e|[rest' a']]|] eqn:Ha; try discriminate.
  - apply Hq.
  - intros Heq; injection Heq as <- <-; eauto.
Qed.

Lemma andThen_consuming (p : Parser A) (k : A -> Parser B) :
  consuming p -> (forall a, positional (k a)) -> consuming (andThen p k).
Proof.
  intros Hp Hk input rest b; simpl.
  destruct (parse p input) as [[e|[next a]]|] eqn:Ha; try discriminate.
  intros Hb; apply Hp in Ha; apply (positional_le (Hk a)) in Hb; lia.
Qed.

Lemma oneOrMore_consuming (fuel : nat) (p : Parser A) :
  consuming p -> positional p -> consuming (oneOrMore fuel p).
Proof.
  intros Hp Hpos input rest vs; simpl.
  destruct (parse p input) as [[e|[next result]]|] eqn:Ha; try discriminate.
  intros Hl; apply Hp in Ha.
  pose proof (loop_positional fuel Hpos [result] (is_suffix_refl next)) as Hs.
  rewrite Hl in Hs; apply is_suffix_length in Hs; lia.
Qed.

End Consumption.

Lemma left_consuming {A B} (p : Parser A) (q : Parser B) :
  consuming p -> positional q -> consuming (left p q).
Proof. intros; apply map_consuming, pair_consuming; assumption. Qed.

Lemma right_consuming {A B} (p : Parser A) (q : Parser B) :
  consuming p -> positional q -> consuming (right p q).
Proof. intros; apply map_consuming, pair_consuming; assumption. Qed.

Lemma left_positional {A B} (p : Parser A) (q : Parser B) :
  positional p -> positional q -> positional (left p q).
Proof. intros; apply map_positional, pair_positional; assumption. Qed.

Lemma right_positional {A B} (p : Parser A) (q : Parser B) :
  positional p -> positional q -> positional (right p q).
Proof. intros; apply map_positional, pair_positional; assumption. Qed.

#[local] Hint Resolve anyChar_positional matchLiteral_positional
  pred_positional map_positional pair_positional either_positional
  andThen_positional zeroOrMore_positional oneOrMore_positional
  left_positional right_positional : parser.

#[local] Hint Resolve anyChar_consuming pred_consuming map_consuming
  pair_consuming either_consuming andThen_consuming oneOrMore_consuming
  left_consuming right_consuming : parser.

Section GrammarShape.

Variable fuel : nat.

Lemma identifier_positional : positional (identifier fuel).
Proof. unfold identifier, alphaNumeric; auto with parser. Qed.

Lemma identifier_consuming : consuming (identifier fuel).
Proof. unfold identifier, alphaNumeric; auto 6 with parser. Qed.

Lemma space1_positional : positional (space1 fuel).
Proof. unfold space1, whitespace; auto with parser. Qed.

Lemma space1_consuming : consuming (space1 fuel).
Proof. unfold space1, whitespace; auto 6 with parser. Qed.

Lemma attributePair_positional : positional (attributePair fuel).
Proof.
  unfold attributePair, quotedString, stringBetween.
  auto 10 using identifier_positional with parser.
Qed.

Lemma attribute_consuming :
  consuming (right (space1 fuel) (attributePair fuel)).
Proof.
  auto using space1_consuming, attributePair_positional with parser.
Qed.

Lemma attributes_positional : positional (attributes fuel).
Proof.
  unfold attributes.
  auto using space1_positional, attributePair_positional with parser.
Qed.

Lemma elementStart_positional : positional (elementStart fuel).
Proof.
  unfold elementStart.
  auto using identifier_positional, attributes_positional with parser.
Qed.

Lemma elementStart_consuming : consuming (elementStart fuel).
Proof.
  unfold elementStart; apply right_consuming.
  - apply matchLiteral_consuming; discriminate.
  - auto using identifier_positional, attributes_positional with parser.
Qed.

Lemma singleElement_positional : positional (singleElement fuel).
Proof.
  unfold singleElement; auto using elementStart_positional with parser.
Qed.

Lemma singleElement_consuming : consuming (singleElement fuel).
Proof.
  unfold singleElement; auto using elementStart_consuming with parser.
Qed.

Lemma openElement_positional : positional (openElement fuel).
Proof.
  unfold openElement; auto using elementStart_positional with parser.
Qed.

Lemma openElement_consuming : consuming (openElement fuel).
Proof.
  unfold openElement; auto using elementStart_consuming with parser.
Qed.

Lemma closeElement_positional (expectedName : jsstring) :
  positional (closeElement fuel expectedName).
Proof.
  unfold closeElement; auto 6 using identifier_positional with parser.
Qed.

Variable e : Parser Element.
Hypothesis e_positional : positional e.

Lemma continuation_positional (el : Element) :
  positional
    (map (left (zeroOrMore fuel e) (closeElement fuel (el_name el)))
         (fun children =>
            mkElement (el_name el) (el_attributes el) children)).
Proof. auto using closeElement_positional with parser. Qed.

Lemma parentElement_positional : positional (parentElement fuel e).
Proof.
  unfold parentElement; apply andThen_positional.
  - apply openElement_positional.
  - apply continuation_positional.
Qed.

Lemma parentElement_consuming : consuming (parentElement fuel e).
Proof.
  unfold parentElement; apply andThen_consuming.
  - apply openElement_consuming.
  - apply continuation_positional.
Qed.

End GrammarShape.

Lemma element_positional (fuel : nat) : positional (element fuel).
Proof.
  induction fuel as [|fuel IH].
  - intros input; exact I.
  - simpl; apply either_positional.
    + apply singleElement_positional.
    + apply parentElement_positional; exact IH.
Qed.

Lemma element_consuming (fuel : nat) : consuming (element fuel).
Proof.
  destruct fuel as [|fuel].
  - intros input rest a; discriminate.
  - simpl; apply either_consuming.
    + apply singleElement_consuming.
    + apply parentElement_consuming, element_positional.
Qed.

(** ** Termination *)

Lemma returns_below_le {A} (n m : nat) (p : Parser A) :
  m <= n -> returns_below n p -> returns_below m p.
Proof. intros Hle Hp input Hlen; apply Hp; lia. Qed.

Lemma anyChar_returns (n : nat) : returns_below n anyChar.
Proof. intros input _; rewrite anyChar_eq; destruct input; eauto. Qed.

Lemma matchLiteral_returns (n : nat) (lit : jsstring) :
  returns_below n (matchLiteral lit).
Proof.
  intros input _; rewrite matchLiteral_eq; destruct (streq _ lit); eauto.
Qed.

Section Termination.

Context {A B : Type}.
Variable n : nat.

Lemma pred_returns (p : Parser A) (predicate : A -> bool) :
  returns_below n p -> returns_below n (pred p predicate).
Proof.
  intros Hp input Hlen; simpl.
  destruct (Hp input Hlen) as [[e|[rest a]] ->]; eauto.
  destruct (predicate a); eauto.
Qed.

Lemma map_returns (p : Parser A) (f : A -> B) :
  returns_below n p -> returns_below n (map p f).
Proof.
  intros Hp input Hlen; simpl.
  destruct (Hp input Hlen) as [r ->]; eauto.
Qed.

Lemma pair_returns (p : Parser A) (q : Parser B) :
  returns_below n p -> positional p -> returns_below n q ->
  returns_below n (pair p q).
Proof.
  intros Hp Hpos Hq input Hlen; simpl.
  destruct (Hp input Hlen) as [[e|[rest a]] Ha]; rewrite Ha; eauto.
  apply (positional_le Hpos) in Ha.
  destruct (Hq rest) as [[e|[restB b]] ->]; eauto; lia.
Qed.

Lemma either_returns (p q : Parser A) :
  returns_below n p -> returns_below n q -> returns_below n (either p q).
Proof.
  intros Hp Hq input Hlen; simpl.
  destruct (Hp input Hlen) as [[e|v] ->]; eauto.
Qed.

(** The continuation runs on strictly less input than [andThen] got. *)
Lemma andThen_returns (p : Parser A) (k : A -> Parser B) :
  returns_below (S n) p -> consuming p ->
  (forall a, returns_below n (k a)) ->
  returns_below (S n) (andThen p k).
Proof.
  intros Hp Hc Hk input Hlen; simpl.
  destruct (Hp input Hlen) as [[e|[next a]] Ha]; rewrite Ha; eauto.
  apply Hc in Ha; apply Hk; lia.
Qed.

(** A loop over a parser that consumes ends before its budget does when
    the budget exceeds the length of the input. *)
Lemma loop_returns (p : Parser A) :
  returns_below n p -> consuming p ->
  forall fuel next results,
    length next < fuel -> length next < n ->
    exists rest vs, loop fuel p next results = Some (Success (rest, vs)).
Proof.
  intros Hp Hc; induction fuel as [|fuel IH]; intros next results Hf Hn;
    [lia|]; simpl.
  destruct (Hp next Hn) as [[e|[next' result]] Ha]; rewrite Ha.
  - unfold success; eauto.
  - apply Hc in Ha; apply IH; lia.
Qed.

Lemma zeroOrMore_returns (fuel : nat) (p : Parser A) :
  n <= fuel -> returns_below n p -> consuming p ->
  returns_below n (zeroOrMore fuel p).
Proof.
  intros Hle Hp Hc input Hlen; simpl.
  destruct (@loop_returns p Hp Hc fuel input []) as (rest & vs & ->);
    eauto; lia.
Qed.

Lemma oneOrMore_returns (fuel : nat) (p : Parser A) :
  n <= fuel -> returns_below n p -> consuming p ->
  returns_below n (oneOrMore fuel p).
Proof.
  intros Hle Hp Hc input Hlen; simpl.
  destruct (Hp input Hlen) as [[e|[next result]] Ha]; rewrite Ha; eauto.
  apply Hc in Ha.
  destruct (@loop_returns p Hp Hc fuel next [result]) as (rest & vs & ->);
    eauto; lia.
Qed.

End Termination.

(** ** [zeroOrMore] *)

(** C6: [zeroOrMore p] never returns a failure, and when the first run of
    [p] fails it returns the input as it was with no value collected.  When
    [p] consumes on success and returns on the inputs shorter than [n], the
    loop does return, a success, on each of those inputs once its budget
    reaches [n]. *)
Theorem zeroOrMore_never_fails {A} (p : Parser A) (input : jsstring) :
  (forall fuel e, parse (zeroOrMore fuel p) input <> Some (Failure e))
  /\ (forall e, parse p input = Some (Failure e) ->
        forall fuel,
          parse (zeroOrMore (S fuel) p) input = Some (Success (input, [])))
  /\ (forall n fuel,
         consuming p -> returns_below n p ->
         length input < n -> n <= fuel ->
         exists rest vs,
           parse (zeroOrMore fuel p) input = Some (Success (rest, vs))).
Proof.
  split; [intros fuel e; apply loop_never_fails|].
  split.
  - intros e H fuel; simpl; rewrite H; reflexivity.
  - intros n fuel Hc Hp Hlen Hle; simpl.
    apply (loop_returns Hp Hc); lia.
Qed.

Lemma zeroOrMore_never_fails_witness :
  parse (zeroOrMore 1 (matchLiteral (str " "))) (str "dog")
  = Some (Success (str "dog", []))
  /\ parse (zeroOrMore 1 anyChar) [] = Some (Success ([], []))
  /\ exists rest vs,
       parse (zeroOrMore 4 anyChar) (str "dog") = Some (Success (rest, vs)).
Proof.
  split; [|split].
  - apply (proj1 (proj2 (zeroOrMore_never_fails (matchLiteral (str " "))
                           (str "dog"))) (str "dog")).
    reflexivity.
  - apply (proj1 (proj2 (zeroOrMore_never_fails anyChar [])) []).
    reflexivity.
  - apply (proj2 (proj2 (zeroOrMore_never_fails anyChar (str "dog"))) 4 4).
    + apply anyChar_consuming.
    + apply anyChar_returns.
    + simpl; lia.
    + lia.
Defined.

Lemma left_returns {A B} (n : nat) (p : Parser A) (q : Parser B) :
  returns_below n p -> positional p -> returns_below n q ->
  returns_below n (left p q).
Proof. intros; apply map_returns, pair_returns; assumption. Qed.

Lemma right_returns {A B} (n : nat) (p : Parser A) (q : Parser B) :
  returns_below n p -> positional p -> returns_below n q ->
  returns_below n (right p q).
Proof. intros; apply map_returns, pair_returns; assumption. Qed.

#[local] Hint Resolve anyChar_returns matchLiteral_returns pred_returns
  map_returns pair_returns either_returns zeroOrMore_returns
  oneOrMore_returns left_returns right_returns : parser.

Section GrammarTermination.

Variables fuel n : nat.
Hypothesis Hle : n <= fuel.

Lemma identifier_returns : returns_below n (identifier fuel).
Proof. unfold identifier, alphaNumeric; auto 6 with parser. Qed.

Lemma space1_returns : returns_below n (space1 fuel).
Proof. unfold space1, whitespace; auto 6 with parser. Qed.

Lemma quotedString_returns : returns_below n (quotedString fuel).
Proof.
  unfold quotedString, stringBetween.
  apply map_returns, right_returns; auto 7 with parser.
Qed.

Lemma attributePair_returns : returns_below n (attributePair fuel).
Proof.
  unfold attributePair.
  apply pair_returns;
    auto using identifier_returns, identifier_positional,
      quotedString_returns with parser.
Qed.

Lemma attributes_returns : returns_below n (attributes fuel).
Proof.
  unfold attributes; apply zeroOrMore_returns; [exact Hle | |].
  - apply right_returns;
      auto using space1_returns, space1_positional, attributePair_returns.
  - apply attribute_consuming.
Qed.

Lemma elementStart_returns : returns_below n (elementStart fuel).
Proof.
  unfold elementStart; apply right_returns; auto with parser.
  apply pair_returns;
    auto using identifier_returns, identifier_positional,
      attributes_returns.
Qed.

Lemma singleElement_returns : returns_below n (singleElement fuel).
Proof.
  unfold singleElement; apply map_returns, left_returns;
    auto using elementStart_returns, elementStart_positional with parser.
Qed.

Lemma openElement_returns : returns_below n (openElement fuel).
Proof.
  unfold openElement; apply map_returns, left_returns;
    auto using elementStart_returns, elementStart_positional with parser.
Qed.

Lemma closeElement_returns (expectedName : jsstring) :
  returns_below n (closeElement fuel expectedName).
Proof.
  unfold closeElement; apply pred_returns, right_returns; auto with parser.
  apply left_returns;
    auto using identifier_returns, identifier_positional with parser.
Qed.

End GrammarTermination.

(** With a budget above the length of the input, [element] returns. *)
Lemma element_returns (fuel : nat) : returns_below fuel (element fuel).
Proof.
  induction fuel as [|fuel IH].
  - intros input Hlen; lia.
  - change (returns_below (S fuel)
              (either (singleElement (S fuel))
                      (parentElement (S fuel) (element fuel)))).
    apply either_returns.
    + apply singleElement_returns; lia.
    + unfold parentElement; apply andThen_returns.
      * apply openElement_returns; lia.
      * apply openElement_consuming.
      * intros el; apply map_returns, left_returns.
        -- apply zeroOrMore_returns;
             [lia | exact IH | apply element_consuming].
        -- apply zeroOrMore_positional, element_positional.
        -- apply closeElement_returns; lia.
Qed.

(** C8: on every input, [runParser] with [element()] returns a result, a
    success or a failure, and the same one for every budget above the
    length of the input. *)
Theorem element_terminates (input : jsstring) :
  exists r : ParserResult Element,
    (isSuccess r = true \/ isFailure r = true)
    /\ forall fuel, length input < fuel ->
                    runParser (element fuel) input = Some r.
Proof.
  destruct (@element_returns (S (length input)) input) as [r Hr]; [lia|].
  exists r; split.
  - destruct r; simpl; auto.
  - intros fuel Hlen; unfold runParser.
    apply (@element_refines (S (length input)) fuel); [lia | exact Hr].
Qed.

Lemma element_terminates_witness :
  exists r : ParserResult Element,
    runParser (element 5) (str "<a/>") = Some r.
Proof.
  destruct (element_terminates (str "<a/>")) as (r & _ & H).
  exists r; apply H; simpl; lia.
Defined.

(** * Further properties of [result.ts] *)

(** X1: [bind] is a monad with [success] as its unit: a success feeds its
    payload to the function, [success] is a right unit, a failure cuts the
    chain short, and chaining is associative. *)
Theorem bind_monad_laws (E A B C : Type) :
  (forall (a : A) (f : A -> Result E B), R.bind (success a) f = f a)
  /\ (forall (e : E) (f : A -> Result E B), R.bind (failure e) f = failure e)
  /\ (forall r : Result E A, R.bind r success = r)
  /\ (forall (r : Result E A) (f : A -> Result E B) (g : B -> Result E C),
         R.bind (R.bind r f) g = R.bind r (fun a => R.bind (f a) g)).
Proof.
  split; [reflexivity|].
  split; [reflexivity|].
  split.
  - intros [e|a]; reflexivity.
  - intros [e|a] f g; reflexivity.
Qed.

(** X2: [map] is a functor on the success side: mapping the identity
    changes nothing, two maps fuse into one, and [map] is [bind] with the
    function's value wrapped in [success]. *)
Theorem map_functor_laws (E A B C : Type) :
  (forall r : Result E A, R.map r (fun a => a) = r)
  /\ (forall (r : Result E A) (f : A -> B) (g : B -> C),
         R.map (R.map r f) g = R.map r (fun a => g (f a)))
  /\ (forall (r : Result E A) (f : A -> B),
         R.map r f = R.bind r (fun a => success (f a))).
Proof.
  split; [|split].
  - intros [e|a]; reflexivity.
  - intros [e|a] f g; reflexivity.
  - intros [e|a] f; reflexivity.
Qed.

(** X3: [mapError] touches the failure side only: it commutes with [map],
    two of them fuse, and [flatten] after mapping both sides is
    [matchResult]. *)
Theorem mapError_independent_of_map (E F G A B : Type) :
  (forall (r : Result E A) (f : A -> B) (h : E -> F),
      R.mapError (R.map r f) h = R.map (R.mapError r h) f)
  /\ (forall (r : Result E A) (h : E -> F) (k : F -> G),
         R.mapError (R.mapError r h) k = R.mapError r (fun e => k (h e)))
  /\ (forall (r : Result E A) (h : E -> B) (f : A -> B),
         R.flatten (R.mapError (R.map r f) h) = R.matchResult h f r).
Proof.
  split; [|split].
  - intros [e|a] f h; reflexivity.
  - intros [e|a] h k; reflexivity.
  - intros [e|a] h f; reflexivity.
Qed.

(** X4: [combineResults] is a success exactly when both results are, and
    then pairs the payloads; otherwise it is the failure of the first
    result if that failed, else of the second.  It is [bind] followed by
    [map], and on two results of one type it agrees with [all]. *)
Theorem combineResults_first_failure (E A B : Type)
    (value1 : Result E A) (value2 : Result E B) :
  R.combineResults value1 value2
  = R.bind value1 (fun a => R.map value2 (fun b => (a, b)))
  /\ (forall a b,
         R.combineResults value1 value2 = Success (a, b)
         <-> value1 = Success a /\ value2 = Success b)
  /\ (forall e,
         R.combineResults value1 value2 = Failure e
         <-> value1 = Failure e
             \/ (isSuccess value1 = true /\ value2 = Failure e)).
Proof.
  split; [destruct value1, value2; reflexivity|].
  split.
  - intros a b; destruct value1 as [e1|a1], value2 as [e2|b2]; simpl;
      unfold success; intuition congruence.
  - intros e; destruct value1 as [e1|a1], value2 as [e2|b2]; simpl;
      unfold success; intuition congruence.
Qed.

(** [combineResults] against [all] on a list of two results. *)
Lemma combineResults_all (E A : Type) (value1 value2 : Result E A) :
  R.all [value1; value2]
  = R.map (R.combineResults value1 value2) (fun '(a, b) => [a; b]).
Proof. destruct value1, value2; reflexivity. Qed.

Section SplitLaws.

Variables E A : Type.
Implicit Types results : list (Result E A).

Lemma split_cons_failure (e : E) results :
  R.split (Failure e :: results)
  = (e :: fst (R.split results), snd (R.split results)).
Proof. reflexivity. Qed.

Lemma split_cons_success (v : A) results :
  R.split (Success v :: results)
  = (fst (R.split results), v :: snd (R.split results)).
Proof. reflexivity. Qed.

Lemma filter_successes results :
  List.filter isSuccess results = List.map Success (snd (R.split results)).
Proof.
  induction results as [|[e|v] results IH]; simpl; auto.
  f_equal; exact IH.
Qed.

Lemma split_successes (vs : list A) :
  R.split (List.map (@Success E A) vs) = ([], vs).
Proof.
  induction vs as [|v vs IH]; [reflexivity|].
  simpl List.map; rewrite split_cons_success, IH; reflexivity.
Qed.

Lemma split_app results1 results2 :
  R.split (results1 ++ results2)
  = (fst (R.split results1) ++ fst (R.split results2),
     snd (R.split results1) ++ snd (R.split results2)).
Proof. unfold R.split; simpl; rewrite !flat_map_app; reflexivity. Qed.

End SplitLaws.

(** X5: [any] never fails: it is the success of the payloads of the
    successes among its arguments, in their order, which is also the second
    list of [split]. *)
Theorem any_collects_successes (E A : Type) (results : list (Result E A)) :
  R.any results = Success (snd (R.split results))
  /\ (forall vs (e : E) rest,
         R.any (List.map Success vs ++ Failure e :: rest)
         = R.map (R.any rest) (fun ws : list A => vs ++ ws)).
Proof.
  assert (Hany : forall l : list (Result E A),
             R.any l = Success (snd (R.split l))).
  { intros l; unfold R.any; rewrite filter_successes; apply all_successes. }
  split; [apply Hany|].
  intros vs e rest.
  rewrite !Hany, split_app, split_successes, split_cons_failure.
  reflexivity.
Qed.

(** X7: [split] keeps every payload once: the two lists together are as
    long as the argument.  Its first list is empty exactly when [all] is a
    success, and then the second list is what [all] collects; when [all]
    fails, it fails with the head of the first list. *)
Theorem split_partitions (E A : Type) (results : list (Result E A)) :
  length (fst (R.split results)) + length (snd (R.split results))
  = length results
  /\ (forall vs, R.all results = Success vs <-> R.split results = ([], vs))
  /\ (forall e, R.all results = Failure e ->
                exists es, fst (R.split results) = e :: es).
Proof.
  split.
  { induction results as [|[e|v] results IH]; [reflexivity| |].
    - rewrite split_cons_failure; simpl in *; lia.
    - rewrite split_cons_success; simpl in *; lia. }
  destruct (results_cases results) as [[ws ->]|(ws & e' & rest & ->)].
  - rewrite all_successes, split_successes.
    split; [intros vs; split; congruence | discriminate].
  - rewrite all_first_failure.
    assert (Hs : fst (R.split (List.map Success ws ++ Failure e' :: rest))
                 = e' :: fst (R.split rest)).
    { rewrite split_app, split_successes, split_cons_failure.
      reflexivity. }
    split.
    + intros vs; split; [discriminate|].
      intros H; rewrite H in Hs; discriminate.
    + intros e H; injection H as <-; eauto.
Qed.

Lemma split_partitions_witness :
  exists es : list nat,
    fst (R.split [Success true; Failure 1; Success false; Failure 2])
    = 1 :: es.
Proof.
  apply (proj2 (proj2 (split_partitions
                         [Success true; Failure 1; Success false; Failure 2]))).
  reflexivity.
Defined.

Section FirstLaws.

Variables E A : Type.

(** The fold of [R.first], from an arbitrary running result. *)
Let first_from (total : Result E A) (results : list (Result E A)) :=
  List.fold_left
    (fun (total current : Result E A) =>
       if isSuccess total then total else current)
    results total.

Lemma last_cons_default (X : Type) (xs : list X) (x d : X) :
  List.last (x :: xs) d = List.last xs x.
Proof.
  revert x d; induction xs as [|y xs IH]; intros x d; [reflexivity|].
  change (List.last (y :: xs) d = List.last (y :: xs) x).
  rewrite !IH; reflexivity.
Qed.

Lemma first_from_success (v : A) (results : list (Result E A)) :
  first_from (Success v) results = Success v.
Proof. induction results as [|r results IH]; simpl; auto. Qed.

Lemma first_from_failures (e0 : E) (es : list E) (rest : list (Result E A)) :
  first_from (Failure e0) (List.map Failure es ++ rest)
  = first_from (Failure (List.last es e0)) rest.
Proof.
  revert e0; induction es as [|e es IH]; intros e0; [reflexivity|].
  simpl List.map; simpl app; simpl first_from at 1.
  fold (first_from (Failure e) (List.map Failure es ++ rest)).
  rewrite IH, last_cons_default; reflexivity.
Qed.

End FirstLaws.

(** X6: [first] is the first success among its arguments, in order, when
    there is one, and otherwise the last of them, a failure. *)
Theorem first_success_or_last_failure (E A : Type)
    (result : Result E A) (results : list (Result E A)) :
  (forall es v rest,
      result :: results = List.map Failure es ++ Success v :: rest ->
      R.first result results = Success v)
  /\ (forall es,
         result :: results = List.map Failure es ->
         R.first result results = List.last (result :: results) result).
Proof.
  unfold R.first; split.
  - intros es v rest H.
    destruct es as [|e es]; simpl in H; injection H as -> ->.
    + apply first_from_success.
    + simpl List.fold_left.
      pose proof (first_from_failures e es (Success v :: rest)) as H.
      simpl in H; rewrite H; apply first_from_success.
  - intros es H.
    destruct es as [|e es]; [discriminate|].
    simpl in H; injection H as -> ->.
    simpl List.fold_left.
    pose proof (first_from_failures (A:=A) e es []) as H.
    rewrite app_nil_r in H; simpl in H; rewrite H; clear H.
    rewrite last_cons_default.
    revert e; induction es as [|x es IH]; intros e; [reflexivity|].
    simpl List.map; rewrite !last_cons_default; apply IH.
Qed.

Lemma first_success_or_last_failure_witness :
  R.first (Failure 1) [Failure 2; Success true; Failure 3; Success false]
  = Success true
  /\ R.first (Failure 1) [Failure 2; @Failure nat bool 3] = Failure 3.
Proof.
  split.
  - apply (proj1 (first_success_or_last_failure (Failure 1)
                    [Failure 2; Success true; Failure 3; Success false])
             [1; 2] true [Failure 3; Success false]).
    reflexivity.
  - apply (proj2 (first_success_or_last_failure (Failure 1)
                    [Failure 2; @Failure nat bool 3]) [1; 2; 3]).
    reflexivity.
Defined.

(** * Further properties of [index.ts] *)

(** ** [splitString] and [anyChar] *)

(** X8: when [splitString] returns a match, the match is exactly [length]
    code units long and match and rest put together are the input; it
    returns [null] exactly when the input is shorter than [length], and the
    rest is then empty. *)
Theorem splitString_reassembles (input : jsstring) (n : nat) :
  (forall m rest,
      splitString input n = (Some m, rest) ->
      m ++ rest = input /\ length m = n)
  /\ (fst (splitString input n) = None <-> length input < n)
  /\ (length input < n -> snd (splitString input n) = []).
Proof.
  destruct (Nat.le_gt_cases n (length input)) as [Hle|Hlt].
  - rewrite splitString_long by exact Hle; simpl.
    split; [|split; [split; [discriminate|lia] | lia]].
    intros m rest H; injection H as <- <-.
    split; [apply firstn_skipn | apply firstn_length_le; exact Hle].
  - rewrite splitString_short by exact Hlt; simpl.
    split; [discriminate|].
    split; [tauto|].
    intros _; apply skipn_all2; lia.
Qed.

Lemma splitString_reassembles_witness :
  str "ab" ++ str "c" = str "abc" /\ length (str "ab") = 2.
Proof.
  apply (proj1 (splitString_reassembles (str "abc") 2)); reflexivity.
Defined.

(** X9: [anyChar] succeeds exactly on a non-empty input, with the first
    code unit as its value and the others as the remainder; on the empty
    input it fails with the empty input. *)
Theorem anyChar_one_code_unit (input : jsstring) :
  (forall rest v,
      parse anyChar input = Some (Success (rest, v))
      <-> exists c, v = [c] /\ input = c :: rest)
  /\ (forall e, parse anyChar input = Some (Failure e)
                <-> input = [] /\ e = [])
  /\ parse anyChar input <> None.
Proof.
  rewrite anyChar_eq; destruct input as [|c input].
  - split; [|split; [|discriminate]].
    + intros rest v; split; [discriminate | intros (c & _ & H); discriminate].
    + intros e; split; [intros H; injection H as <-; auto|].
      intros [_ ->]; reflexivity.
  - split; [|split; [|discriminate]].
    + intros rest v; split.
      * intros H; injection H as <- <-; eauto.
      * intros (c' & -> & H); injection H as <- <-; reflexivity.
    + intros e; split; [discriminate | intros [H _]; discriminate].
Qed.

(** ** How the combinators compose *)

Lemma map_success_iff {A B} (p : Parser A) (f : A -> B)
    (input rest : jsstring) (b : B) :
  parse (map p f) input = Some (Success (rest, b))
  <-> exists a, parse p input = Some (Success (rest, a)) /\ b = f a.
Proof.
  simpl; destruct (parse p input) as [[e|[rest' a]]|]; simpl; unfold success.
  - split; [discriminate | intros (a & H & _); discriminate].
  - split.
    + intros H; injection H as <- <-; eauto.
    + intros (a' & H & ->); injection H as <- <-; reflexivity.
  - split; [discriminate | intros (a & H & _); discriminate].
Qed.

(** X10: [map] changes the value of a success and nothing else: the
    remainder and every failure are those of the parser; mapping the
    identity gives the same results, and two maps fuse. *)
Theorem map_keeps_position {A B C} (p : Parser A) (f : A -> B) (g : B -> C)
    (input : jsstring) :
  (forall rest b,
      parse (map p f) input = Some (Success (rest, b))
      <-> exists a, parse p input = Some (Success (rest, a)) /\ b = f a)
  /\ (forall e, parse (map p f) input = Some (Failure e)
                <-> parse p input = Some (Failure e))
  /\ parse (map p (fun a => a)) input = parse p input
  /\ parse (map (map p f) g) input = parse (map p (fun a => g (f a))) input.
Proof.
  split; [intros rest b; apply map_success_iff|].
  simpl; destruct (parse p input) as [[e|[rest a]]|]; simpl; unfold success.
  - split; [|split]; try reflexivity.
    intros e'; split; intros H; injection H as <-; reflexivity.
  - split; [|split]; try reflexivity.
    intros e; split; discriminate.
  - split; [|split]; try reflexivity.
    intros e; split; discriminate.
Qed.

Lemma pair_success_iff {A B} (p : Parser A) (q : Parser B)
    (input rest : jsstring) (a : A) (b : B) :
  parse (pair p q) input = Some (Success (rest, (a, b)))
  <-> exists mid, parse p input = Some (Success (mid, a))
                  /\ parse q mid = Some (Success (rest, b)).
Proof.
  simpl; destruct (parse p input) as [[e|[mid a']]|].
  - split; [discriminate | intros (m & H & _); discriminate].
  - split.
    + destruct (parse q mid) as [[e|[rest' b']]|] eqn:Hq; try discriminate.
      intros H; injection H as <- <- <-; eauto.
    + intros (m & H & Hq); injection H as <- <-; rewrite Hq; reflexivity.
  - split; [discriminate | intros (m & H & _); discriminate].
Qed.

Lemma left_success_iff {A B} (p : Parser A) (q : Parser B)
    (input rest : jsstring) (a : A) :
  parse (left p q) input = Some (Success (rest, a))
  <-> exists mid b, parse p input = Some (Success (mid, a))
                    /\ parse q mid = Some (Success (rest, b)).
Proof.
  unfold left; rewrite map_success_iff; split.
  - intros ([a' b] & Hp & ->); apply pair_success_iff in Hp.
    destruct Hp as (mid & Hp & Hq); eauto.
  - intros (mid & b & Hp & Hq); exists (a, b); split; [|reflexivity].
    apply pair_success_iff; eauto.
Qed.

Lemma right_success_iff {A B} (p : Parser A) (q : Parser B)
    (input rest : jsstring) (b : B) :
  parse (right p q) input = Some (Success (rest, b))
  <-> exists mid a, parse p input = Some (Success (mid, a))
                    /\ parse q mid = Some (Success (rest, b)).
Proof.
  unfold right; rewrite map_success_iff; split.
  - intros ([a b'] & Hp & ->); apply pair_success_iff in Hp.
    destruct Hp as (mid & Hp & Hq); eauto.
  - intros (mid & a & Hp & Hq); exists (a, b); split; [|reflexivity].
    apply pair_success_iff; eauto.
Qed.

(** X11: [pair] succeeds exactly when the first parser succeeds and the
    second succeeds on the remainder of the first; it is [andThen] with a
    continuation that maps the second value into the pair.  [left] and
    [right] succeed on the same inputs with the same remainder, keeping one
    side of the pair. *)
Theorem pair_threads_remainder {A B} (p : Parser A) (q : Parser B)
    (input : jsstring) :
  (forall rest a b,
      parse (pair p q) input = Some (Success (rest, (a, b)))
      <-> exists mid, parse p input = Some (Success (mid, a))
                      /\ parse q mid = Some (Success (rest, b)))
  /\ parse (pair p q) input
     = parse (andThen p (fun a => map q (fun b => (a, b)))) input
  /\ (forall rest a,
         parse (left p q) input = Some (Success (rest, a))
         <-> exists b, parse (pair p q) input = Some (Success (rest, (a, b))))
  /\ (forall rest b,
         parse (right p q) input = Some (Success (rest, b))
         <-> exists a, parse (pair p q) input = Some (Success (rest, (a, b)))).
Proof.
  split; [intros rest a b; apply pair_success_iff|].
  split.
  { simpl; destruct (parse p input) as [[e|[mid a]]|]; try reflexivity.
    destruct (parse q mid) as [[e|[rest b]]|]; reflexivity. }
  split.
  - intros rest a; rewrite left_success_iff; split.
    + intros (mid & b & H); exists b; apply pair_success_iff; eauto.
    + intros [b H]; apply pair_success_iff in H.
      destruct H as (mid & H); eauto.
  - intros rest b; rewrite right_success_iff; split.
    + intros (mid & a & H); exists a; apply pair_success_iff; eauto.
    + intros [a H]; apply pair_success_iff in H.
      destruct H as (mid & H); eauto.
Qed.

(** X12: [andThen] is associative: chaining a continuation after a chain
    is chaining into the continuation. *)
Theorem andThen_associative {A B C} (p : Parser A) (k : A -> Parser B)
    (h : B -> Parser C) (input : jsstring) :
  parse (andThen (andThen p k) h) input
  = parse (andThen p (fun a => andThen (k a) h)) input.
Proof.
  simpl; destruct (parse p input) as [[e|[next a]]|]; reflexivity.
Qed.

(** X13: ordered choice is associative, and offering the same parser
    twice changes nothing; a failure of [either] is a failure of its second
    parser, met after a failure of the first. *)
Theorem either_associative {A} (p q r : Parser A) (input : jsstring) :
  parse (either (either p q) r) input = parse (either p (either q r)) input
  /\ parse (either p p) input = parse p input
  /\ (forall e, parse (either p q) input = Some (Failure e)
                <-> (exists e', parse p input = Some (Failure e'))
                    /\ parse q input = Some (Failure e)).
Proof.
  simpl; destruct (parse p input) as [[e|v]|] eqn:Hp.
  - split; [|split].
    + destruct (parse q input) as [[e'|v]|]; reflexivity.
    + reflexivity.
    + intros e0; split; [eauto | tauto].
  - split; [reflexivity|]; split; [reflexivity|].
    intros e0; split; [discriminate | intros [[e' H] _]; discriminate].
  - split; [reflexivity|]; split; [reflexivity|].
    intros e0; split; [discriminate | intros [[e' H] _]; discriminate].
Qed.

(** X14: two predicates on one parser are one predicate, their
    conjunction: a value rejected by either sends the failure back to the
    input of the whole. *)
Theorem pred_fuses {A} (p : Parser A) (f g : A -> bool) (input : jsstring) :
  parse (pred (pred p f) g) input
  = parse (pred p (fun a => f a && g a)) input.
Proof.
  simpl; destruct (parse p input) as [[e|[rest a]]|]; try reflexivity.
  destruct (f a); simpl; reflexivity.
Qed.

(** ** Repetition *)

Lemma loop_run {A} (p : Parser A) (fuel : nat) :
  forall next acc rest vs,
    loop fuel p next acc = Some (Success (rest, vs)) ->
    exists ws, vs = acc ++ ws /\ run_of p next ws rest.
Proof.
  induction fuel as [|fuel IH]; intros next acc rest vs; simpl;
    [discriminate|].
  destruct (parse p next) as [[e|[next' a]]|] eqn:Hp; [| |discriminate].
  - intros H; injection H as <- <-.
    exists []; rewrite app_nil_r; eauto using @run_stop.
  - intros H; apply IH in H; destruct H as (ws & -> & Hr).
    exists (a :: ws); rewrite <- app_assoc; eauto using @run_step.
Qed.

Lemma run_loop {A} (p : Parser A) (input rest : jsstring) (ws : list A) :
  run_of p input ws rest ->
  forall fuel acc,
    length ws < fuel ->
    loop fuel p input acc = Some (Success (rest, acc ++ ws)).
Proof.
  induction 1 as [input e Hp|input next rest a vs Hp _ IH];
    intros fuel acc Hlen.
  - destruct fuel; [lia|]; simpl; rewrite Hp, app_nil_r; reflexivity.
  - destruct fuel; [simpl in Hlen; lia|]; simpl; rewrite Hp.
    rewrite (IH fuel (acc ++ [a])) by (simpl in Hlen; lia).
    rewrite <- app_assoc; reflexivity.
Qed.

Lemma run_ends_in_failure {A} (p : Parser A) input vs rest :
  run_of p input vs rest -> exists e, parse p rest = Some (Failure e).
Proof. induction 1; eauto. Qed.

Lemma run_consumes {A} (p : Parser A) input vs rest :
  consuming p -> run_of p input vs rest ->
  length vs + length rest <= length input.
Proof.
  intros Hc; induction 1 as [|input next rest a vs Hp _ IH]; simpl; [lia|].
  apply Hc in Hp; lia.
Qed.

(** X15: [zeroOrMore p] returns the values of the successive successes of
    [p], in order, each run starting where the one before stopped, and the
    remainder on which [p] then fails; one pass of the loop per value and
    one for the failure are what it needs. *)
Theorem zeroOrMore_longest_run {A} (p : Parser A) (input rest : jsstring)
    (vs : list A) :
  (forall fuel,
      parse (zeroOrMore fuel p) input = Some (Success (rest, vs)) ->
      run_of p input vs rest
      /\ length vs < fuel
      /\ exists e, parse p rest = Some (Failure e))
  /\ (run_of p input vs rest ->
      forall fuel,
        parse (zeroOrMore fuel p) input
        = if length vs <? fuel then Some (Success (rest, vs)) else None).
Proof.
  assert (Hback : run_of p input vs rest ->
                  forall fuel, length vs < fuel ->
                    parse (zeroOrMore fuel p) input
                    = Some (Success (rest, vs))).
  { intros Hr fuel Hlen; simpl.
    apply (@run_loop _ _ _ _ _ Hr fuel [] Hlen). }
  assert (Hshort : forall input vs rest,
             run_of p input vs rest ->
             forall fuel acc, fuel <= length vs ->
               loop fuel p input acc = None).
  { clear; induction 1 as [input e Hp|input next rest a vs Hp _ IH];
      intros fuel acc Hlen.
    - destruct fuel; [reflexivity | simpl in Hlen; lia].
    - destruct fuel; [reflexivity|]; simpl; rewrite Hp.
      apply IH; simpl in Hlen; lia. }
  split.
  - intros fuel H; simpl in H.
    pose proof (loop_run _ _ _ _ H) as (ws & -> & Hr); simpl.
    split; [exact Hr|].
    split; [|apply (run_ends_in_failure Hr)].
    destruct (Nat.lt_ge_cases (length ws) fuel) as [Hlt|Hge]; [exact Hlt|].
    rewrite (Hshort _ _ _ Hr fuel [] Hge) in H; discriminate.
  - intros Hr fuel.
    destruct (Nat.ltb_spec (length vs) fuel) as [Hlt|Hge].
    + apply Hback; assumption.
    + apply (Hshort _ _ _ Hr fuel [] Hge).
Qed.

Lemma zeroOrMore_longest_run_witness :
  run_of (matchLiteral (str "d")) (str "ddog") [str "d"; str "d"] (str "og")
  /\ parse (zeroOrMore 3 (matchLiteral (str "d"))) (str "ddog")
     = Some (Success (str "og", [str "d"; str "d"])).
Proof.
  assert (Hr : run_of (matchLiteral (str "d")) (str "ddog")
                 [str "d"; str "d"] (str "og")).
  { apply (proj1 (zeroOrMore_longest_run (matchLiteral (str "d"))
                    (str "ddog") (str "og") [str "d"; str "d"]) 5).
    reflexivity. }
  split; [exact Hr|].
  apply (proj2 (zeroOrMore_longest_run (matchLiteral (str "d"))
                  (str "ddog") (str "og") [str "d"; str "d"]) Hr 3).
Defined.

Lemma loop_acc {A} (p : Parser A) (fuel : nat) :
  forall next acc,
    loop fuel p next acc
    = match loop fuel p next [] with
      | Some (Success (rest, ws)) => Some (Success (rest, acc ++ ws))
      | Some (Failure e) => Some (Failure e)
      | None => None
      end.
Proof.
  induction fuel as [|fuel IH]; intros next acc; simpl; [reflexivity|].
  destruct (parse p next) as [[e|[next' a]]|]; try reflexivity.
  - unfold success; rewrite app_nil_r; reflexivity.
  - rewrite (IH next' (acc ++ [a])), (IH next' [a]).
    destruct (loop fuel p next' []) as [[e|[rest ws]]|]; try reflexivity.
    rewrite <- app_assoc; reflexivity.
Qed.

(** X16: [oneOrMore p] fails exactly when the first run of [p] fails, and
    with the same error; when it succeeds it has at least one value: the
    value of the first run followed by the values that [zeroOrMore]
    collects from there. *)
Theorem oneOrMore_minimality {A} (p : Parser A) (fuel : nat)
    (input : jsstring) :
  (forall e, parse (oneOrMore fuel p) input = Some (Failure e)
             <-> parse p input = Some (Failure e))
  /\ (forall rest vs,
         parse (oneOrMore fuel p) input = Some (Success (rest, vs))
         <-> exists next a ws,
               vs = a :: ws
               /\ parse p input = Some (Success (next, a))
               /\ parse (zeroOrMore fuel p) next = Some (Success (rest, ws))).
Proof.
  simpl; destruct (parse p input) as [[e|[next a]]|] eqn:Hp.
  - split.
    + intros e'; split; intros H; injection H as <-; reflexivity.
    + intros rest vs; split; [discriminate|].
      intros (n & a & ws & _ & H & _); discriminate.
  - split.
    + intros e; split; [|discriminate].
      intros H; exfalso; exact (loop_never_fails _ _ _ _ H).
    + intros rest vs; rewrite (loop_acc p fuel next [a]); split.
      * destruct (loop fuel p next []) as [[e|[rest' ws]]|] eqn:Hl;
          try discriminate.
        intros H; injection H as <- <-; exists next, a, ws; auto.
      * intros (n & b & ws & -> & H & Hz); injection H as <- <-.
        rewrite Hz; reflexivity.
  - split.
    + intros e; split; discriminate.
    + intros rest vs; split; [discriminate|].
      intros (n & a & ws & _ & H & _); discriminate.
Qed.

(** X17: over a parser that consumes on each success, a repetition
    collects at most one value per code unit consumed, and [oneOrMore]
    at least one value. *)
Theorem repetition_bounded_by_input {A} (p : Parser A) (fuel : nat)
    (input rest : jsstring) (vs : list A) :
  consuming p ->
  (parse (zeroOrMore fuel p) input = Some (Success (rest, vs)) ->
   length vs + length rest <= length input)
  /\ (parse (oneOrMore fuel p) input = Some (Success (rest, vs)) ->
      0 < length vs /\ length vs + length rest <= length input).
Proof.
  intros Hc; split.
  - simpl; intros H; apply loop_run in H; destruct H as (ws & -> & Hr).
    apply (run_consumes Hc Hr).
  - simpl.
    destruct (parse p input) as [[e|[next a]]|] eqn:Hp; try discriminate.
    intros H; apply loop_run in H; destruct H as (ws & -> & Hr).
    apply Hc in Hp; pose proof (run_consumes Hc Hr); simpl; lia.
Qed.

Lemma repetition_bounded_by_input_witness :
  length [str "d"; str "d"] + length (str "og") <= length (str "ddog").
Proof.
  apply (proj1 (@repetition_bounded_by_input _ (matchLiteral (str "d")) 5
                  (str "ddog") (str "og") [str "d"; str "d"]
                  (@matchLiteral_consuming (str "d") ltac:(discriminate)))).
  reflexivity.
Defined.

(** X18: no parser built from the primitives and combinators makes up
    input: the remainder of a success is what is left of the input after
    a prefix of it. *)
Theorem remainder_is_suffix {A} (p : Parser A) (input rest : jsstring)
    (a : A) :
  built true p ->
  parse p input = Some (Success (rest, a)) ->
  is_suffix rest input /\ length rest <= length input.
Proof.
  intros Hb H; pose proof (built_positional Hb input) as Hp.
  rewrite H in Hp; split; [exact Hp | apply is_suffix_length; exact Hp].
Qed.

Lemma remainder_is_suffix_witness :
  is_suffix (str "yeah") (str "&ayeah")
  /\ length (str "yeah") <= length (str "&ayeah").
Proof.
  apply (@remainder_is_suffix _
           (right (matchLiteral (str "&")) (matchLiteral (str "a")))
           (str "&ayeah") (str "yeah") (str "a")).
  - apply built_right; [reflexivity | constructor | constructor].
  - reflexivity.
Defined.

(** X19: a success of [element()] leaves a proper suffix of the input,
    and a failure of it carries a suffix of the input. *)
Theorem element_consumes (fuel : nat) (input : jsstring) :
  (forall rest el,
      parse (element fuel) input = Some (Success (rest, el)) ->
      is_suffix rest input /\ length rest < length input)
  /\ (forall e, parse (element fuel) input = Some (Failure e) ->
                is_suffix e input).
Proof.
  pose proof (element_positional fuel input) as Hp.
  split.
  - intros rest el H; rewrite H in Hp; split; [exact Hp|].
    eapply element_consuming; exact H.
  - intros e H; rewrite H in Hp; exact Hp.
Qed.

Lemma element_consumes_witness :
  is_suffix (str "tail") (str "<a/>tail")
  /\ length (str "tail") < length (str "<a/>tail").
Proof.
  apply (proj1 (element_consumes 3 (str "<a/>tail")) (str "tail")
           (mkElement (str "a") [] [])).
  reflexivity.
Defined.

(** ** One code unit at a time *)

Section CharacterClass.

Variable f : jsstring -> bool.

Lemma pred_anyChar_eq (input : jsstring) :
  parse (pred anyChar f) input
  = match input with
    | [] => Some (Failure [])
    | c :: rest =>
        if f [c] then Some (Success (rest, [c])) else Some (Failure input)
    end.
Proof.
  cbn [parse pred]; rewrite anyChar_eq.
  destruct input as [|c rest]; reflexivity.
Qed.

Lemma pred_anyChar_fails (input : jsstring) :
  starts_with f input = false ->
  parse (pred anyChar f) input = Some (Failure input).
Proof.
  rewrite pred_anyChar_eq; destruct input as [|c rest]; simpl;
    [reflexivity | intros ->; reflexivity].
Qed.

(** A run of [pred anyChar f] takes the longest prefix whose code units
    all satisfy [f]. *)
Lemma run_units (body rest : jsstring) :
  all_units f body = true -> starts_with f rest = false ->
  run_of (pred anyChar f) (body ++ rest) (units body) rest.
Proof.
  intros Hb Hr; induction body as [|c body IH]; simpl.
  - apply run_stop with (e := rest), pred_anyChar_fails, Hr.
  - simpl in Hb; apply andb_true_iff in Hb; destruct Hb as [Hc Hb].
    apply run_step with (next := body ++ rest); [|apply IH, Hb].
    rewrite pred_anyChar_eq, Hc; reflexivity.
Qed.

Lemma units_run (input rest : jsstring) (vs : list jsstring) :
  run_of (pred anyChar f) input vs rest ->
  exists body,
    vs = units body /\ input = body ++ rest
    /\ all_units f body = true /\ starts_with f rest = false.
Proof.
  induction 1 as [input e Hp|input next rest a vs Hp _ IH].
  - exists []; repeat split.
    rewrite pred_anyChar_eq in Hp; destruct input as [|c r]; [reflexivity|].
    simpl; destruct (f [c]); [discriminate | reflexivity].
  - destruct IH as (body & -> & -> & Hb & Hr).
    rewrite pred_anyChar_eq in Hp; destruct input as [|c r]; [discriminate|].
    destruct (f [c]) eqn:Hc; [|discriminate].
    injection Hp as -> <-.
    exists (c :: body); repeat split; auto.
    simpl; rewrite Hc; exact Hb.
Qed.

End CharacterClass.

Lemma join_units (s : jsstring) : join (units s) = s.
Proof. induction s as [|c s IH]; simpl; [|f_equal]; auto. Qed.

Lemma isAlphaNumeric_starts_with (s : jsstring) :
  isAlphaNumeric s = starts_with isAlphaNumeric s.
Proof. destruct s; reflexivity. Qed.

(** One code unit trims to the empty string exactly when it is white
    space. *)
Lemma trim_unit (c : codeunit) : streq (trim [c]) [] = isWhiteSpace c.
Proof.
  unfold trim; cbn [trimStart].
  destruct (isWhiteSpace c) eqn:Hc; [reflexivity|].
  cbn [List.rev app trimStart]; rewrite Hc; reflexivity.
Qed.

Section CharacterClassLoops.

Variable f : jsstring -> bool.
Variable fuel : nat.

Lemma length_units (s : jsstring) : length (units s) = length s.
Proof. apply length_map. Qed.

Lemma zeroOrMore_units_sound (input rest : jsstring) (vs : list jsstring) :
  parse (zeroOrMore fuel (pred anyChar f)) input = Some (Success (rest, vs)) ->
  exists body,
    vs = units body /\ input = body ++ rest
    /\ all_units f body = true /\ starts_with f rest = false.
Proof.
  simpl; intros H; apply loop_run in H; destruct H as (ws & -> & Hr).
  apply units_run in Hr; exact Hr.
Qed.

Lemma zeroOrMore_units_complete (body rest : jsstring) :
  all_units f body = true -> starts_with f rest = false ->
  length body < fuel ->
  parse (zeroOrMore fuel (pred anyChar f)) (body ++ rest)
  = Some (Success (rest, units body)).
Proof.
  intros Hb Hr Hlen; simpl.
  apply (@run_loop _ _ _ _ _ (run_units f body rest Hb Hr) fuel []).
  rewrite length_units; exact Hlen.
Qed.

Lemma oneOrMore_units_sound (input rest : jsstring) (vs : list jsstring) :
  parse (oneOrMore fuel (pred anyChar f)) input = Some (Success (rest, vs)) ->
  exists body,
    vs = units body /\ input = body ++ rest /\ body <> []
    /\ all_units f body = true /\ starts_with f rest = false.
Proof.
  cbn [parse oneOrMore]; rewrite pred_anyChar_eq.
  destruct input as [|c next]; [discriminate|].
  destruct (f [c]) eqn:Hc; [|discriminate].
  intros H; apply loop_run in H; destruct H as (ws & -> & Hr).
  apply units_run in Hr; destruct Hr as (body & -> & -> & Hb & Hr).
  exists (c :: body); repeat split; auto; [discriminate|].
  simpl; rewrite Hc; exact Hb.
Qed.

Lemma oneOrMore_units_complete (body rest : jsstring) :
  body <> [] -> all_units f body = true -> starts_with f rest = false ->
  length body <= fuel ->
  parse (oneOrMore fuel (pred anyChar f)) (body ++ rest)
  = Some (Success (rest, units body)).
Proof.
  intros Hne Hb Hr Hlen; destruct body as [|c body]; [contradiction|].
  simpl in Hb; apply andb_true_iff in Hb; destruct Hb as [Hc Hb].
  change ((c :: body) ++ rest) with (c :: (body ++ rest)).
  cbn [parse oneOrMore]; rewrite pred_anyChar_eq, Hc.
  apply (@run_loop _ _ _ _ _ (run_units f body rest Hb Hr) fuel [[c]]).
  rewrite length_units; simpl in Hlen; lia.
Qed.

Lemma oneOrMore_units_fails (input : jsstring) :
  starts_with f input = false ->
  parse (oneOrMore fuel (pred anyChar f)) input = Some (Failure input).
Proof.
  intros H; cbn [parse oneOrMore].
  rewrite (pred_anyChar_fails f input H); reflexivity.
Qed.

End CharacterClassLoops.

(** ** The lexical parsers *)

Lemma identifier_sound (fuel : nat) (input rest name : jsstring) :
  parse (identifier fuel) input = Some (Success (rest, name)) ->
  input = name ++ rest /\ name <> []
  /\ all_units isAlphaNumeric name = true /\ isAlphaNumeric rest = false.
Proof.
  unfold identifier, alphaNumeric; rewrite map_success_iff.
  intros (vs & H & ->); apply oneOrMore_units_sound in H.
  destruct H as (body & -> & -> & Hne & Hb & Hr).
  rewrite join_units, isAlphaNumeric_starts_with; auto.
Qed.

Lemma identifier_complete (fuel : nat) (name rest : jsstring) :
  name <> [] -> all_units isAlphaNumeric name = true ->
  isAlphaNumeric rest = false -> length name <= fuel ->
  parse (identifier fuel) (name ++ rest) = Some (Success (rest, name)).
Proof.
  intros Hne Hb Hr Hlen; unfold identifier, alphaNumeric.
  apply map_success_iff; exists (units name); split.
  - apply oneOrMore_units_complete; auto.
  - symmetry; apply join_units.
Qed.

Lemma identifier_fails (fuel : nat) (input : jsstring) :
  isAlphaNumeric input = false ->
  parse (identifier fuel) input = Some (Failure input).
Proof.
  intros H; unfold identifier, alphaNumeric; cbn [parse map].
  rewrite oneOrMore_units_fails;
    [reflexivity | rewrite <- isAlphaNumeric_starts_with; exact H].
Qed.

(** X20: [identifier] takes the longest non-empty prefix of letters and
    digits: a success returns such a prefix and leaves a remainder that
    does not start with a letter or digit, every input of that shape is
    parsed so once the budget reaches the length of the name, and an input
    that does not start with a letter or digit is refused as it is. *)
Theorem identifier_longest_alphanumeric_prefix (fuel : nat)
    (input : jsstring) :
  (forall rest name,
      parse (identifier fuel) input = Some (Success (rest, name)) ->
      input = name ++ rest /\ name <> []
      /\ all_units isAlphaNumeric name = true
      /\ isAlphaNumeric rest = false)
  /\ (forall name rest,
         input = name ++ rest -> name <> [] ->
         all_units isAlphaNumeric name = true ->
         isAlphaNumeric rest = false -> length name <= fuel ->
         parse (identifier fuel) input = Some (Success (rest, name)))
  /\ (isAlphaNumeric input = false ->
      parse (identifier fuel) input = Some (Failure input)).
Proof.
  split; [intros rest name; apply identifier_sound|].
  split; [|apply identifier_fails].
  intros name rest ->; apply identifier_complete.
Qed.

Lemma identifier_longest_alphanumeric_prefix_witness :
  parse (identifier 5) (str "horse=1") = Some (Success (str "=1", str "horse"))
  /\ parse (identifier 5) (str "----") = Some (Failure (str "----")).
Proof.
  split.
  - apply (proj1 (proj2 (identifier_longest_alphanumeric_prefix 5
                           (str "horse=1"))) (str "horse") (str "=1")).
    + reflexivity.
    + discriminate.
    + reflexivity.
    + reflexivity.
    + simpl; lia.
  - apply (proj2 (proj2 (identifier_longest_alphanumeric_prefix 5
                           (str "----")))).
    reflexivity.
Defined.

Lemma trimStart_units (body rest : jsstring) :
  all_units (fun a => streq (trim a) []) body = true ->
  starts_with (fun a => streq (trim a) []) rest = false ->
  trimStart (body ++ rest) = rest.
Proof.
  intros Hb Hr; induction body as [|c body IH]; simpl.
  - destruct rest as [|c rest]; [reflexivity|].
    simpl in Hr; rewrite trim_unit in Hr.
    cbn [trimStart]; rewrite Hr; reflexivity.
  - simpl in Hb; apply andb_true_iff in Hb; destruct Hb as [Hc Hb].
    rewrite trim_unit in Hc; rewrite Hc; apply IH, Hb.
Qed.

Lemma trimStart_split (input : jsstring) :
  exists body,
    input = body ++ trimStart input
    /\ all_units (fun a => streq (trim a) []) body = true
    /\ starts_with (fun a => streq (trim a) []) (trimStart input) = false.
Proof.
  induction input as [|c input (body & Hin & Hb & Hr)].
  - exists []; auto.
  - cbn [trimStart]; destruct (isWhiteSpace c) eqn:Hc.
    + exists (c :: body); simpl; rewrite trim_unit, Hc.
      repeat split; auto; f_equal; exact Hin.
    + exists []; repeat split; simpl; rewrite trim_unit; exact Hc.
Qed.

(** X21: [space0] removes the leading white space and nothing else: its
    remainder is the input with [trimStart] applied, its values are the
    code units removed, and it returns so on every input shorter than its
    budget.  [space1] does the same when the input starts with white
    space, and fails with the input otherwise. *)
Theorem space0_is_trimStart (fuel : nat) (input : jsstring) :
  (forall rest vs,
      parse (space0 fuel) input = Some (Success (rest, vs)) ->
      rest = trimStart input /\ join vs ++ rest = input)
  /\ (length input < fuel ->
      exists vs,
        parse (space0 fuel) input = Some (Success (trimStart input, vs)))
  /\ (forall rest vs,
         parse (space1 fuel) input = Some (Success (rest, vs)) ->
         rest = trimStart input /\ join vs ++ rest = input /\ vs <> [])
  /\ (starts_with (fun a => streq (trim a) []) input = false ->
      parse (space1 fuel) input = Some (Failure input)).
Proof.
  unfold space0, space1, whitespace.
  split; [|split; [|split]].
  - intros rest vs H; apply zeroOrMore_units_sound in H.
    destruct H as (body & -> & -> & Hb & Hr).
    rewrite join_units, (trimStart_units _ _ Hb Hr); auto.
  - intros Hlen; destruct (trimStart_split input) as (body & Hin & Hb & Hr).
    exists (units body); rewrite Hin at 1.
    apply zeroOrMore_units_complete; auto.
    apply (f_equal (@length _)) in Hin; rewrite length_app in Hin; lia.
  - intros rest vs H; apply oneOrMore_units_sound in H.
    destruct H as (body & -> & -> & Hne & Hb & Hr).
    rewrite join_units, (trimStart_units _ _ Hb Hr).
    repeat split; auto.
    destruct body; [contradiction | discriminate].
  - apply oneOrMore_units_fails.
Qed.

Lemma space0_is_trimStart_witness :
  (exists vs,
      parse (space0 8) (str "  dog ") = Some (Success (str "dog ", vs)))
  /\ parse (space1 8) (str "nope") = Some (Failure (str "nope")).
Proof.
  split.
  - apply (proj1 (proj2 (space0_is_trimStart 8 (str "  dog ")))).
    simpl; lia.
  - apply (proj2 (proj2 (proj2 (space0_is_trimStart 8 (str "nope"))))).
    reflexivity.
Defined.

Lemma matchLiteral_prefix (lit rest : jsstring) :
  parse (matchLiteral lit) (lit ++ rest) = Some (Success (rest, lit)).
Proof.
  rewrite matchLiteral_eq.
  rewrite firstn_app, Nat.sub_diag, firstn_all; simpl firstn.
  rewrite app_nil_r, streq_refl.
  rewrite skipn_app, Nat.sub_diag, skipn_all; reflexivity.
Qed.

Lemma matchLiteral_success (lit input rest v : jsstring) :
  parse (matchLiteral lit) input = Some (Success (rest, v)) ->
  v = lit /\ input = lit ++ rest.
Proof.
  rewrite matchLiteral_eq.
  destruct (streq _ lit) eqn:Heq; [|discriminate].
  intros H; injection H as <- <-; split; [reflexivity|].
  apply streq_true_iff in Heq.
  rewrite <- (firstn_skipn (length lit) input) at 1.
  rewrite Heq; reflexivity.
Qed.

Lemma matchLiteral_mismatch (lit input : jsstring) :
  (forall rest, input <> lit ++ rest) ->
  parse (matchLiteral lit) input = Some (Failure input).
Proof.
  intros H; rewrite matchLiteral_eq.
  destruct (streq _ lit) eqn:Heq; [|reflexivity].
  apply streq_true_iff, prefix_firstn in Heq.
  destruct Heq as [rest Heq]; destruct (H rest Heq).
Qed.

(** ** [stringBetween] *)

Section Between.

Variables s e : codeunit.

(** The predicate of [stringBetween] on delimiters of one code unit. *)
Let between (c : jsstring) : bool :=
  negb (streq c [s]) && negb (streq c [e]).

Lemma between_unit (c : codeunit) :
  between [c] = true <-> c <> s /\ c <> e.
Proof.
  unfold between; rewrite andb_true_iff, !negb_true_iff, !streq_false_iff.
  split; intros [H1 H2]; split; congruence.
Qed.

Lemma all_units_between (body : jsstring) :
  all_units between body = true <-> ~ In s body /\ ~ In e body.
Proof.
  induction body as [|c body IH]; simpl; [tauto|].
  rewrite andb_true_iff, IH, between_unit.
  split.
  - intros [[H1 H2] [H3 H4]]; split; intros [H|H]; auto.
  - intros [H1 H2]; repeat split; auto; intros ->; auto.
Qed.

Lemma between_stops_at_end (rest : jsstring) :
  starts_with between (e :: rest) = false.
Proof.
  unfold between; simpl; rewrite N.eqb_refl; simpl.
  apply andb_false_r.
Qed.

End Between.

Lemma stringBetween_sound (fuel : nat) (s e : codeunit)
    (input rest body : jsstring) :
  parse (stringBetween fuel [s] [e]) input = Some (Success (rest, body)) ->
  input = [s] ++ body ++ [e] ++ rest /\ ~ In s body /\ ~ In e body.
Proof.
  unfold stringBetween; rewrite map_success_iff.
  intros (vs & H & ->).
  apply right_success_iff in H; destruct H as (mid & a & Hs & H).
  apply left_success_iff in H; destruct H as (mid2 & b & Hz & He).
  apply zeroOrMore_units_sound in Hz.
  destruct Hz as (inner & -> & -> & Hb & _).
  apply matchLiteral_success in Hs, He.
  destruct Hs as [_ ->], He as [_ ->].
  rewrite join_units; split; [reflexivity|].
  apply all_units_between; exact Hb.
Qed.

Lemma stringBetween_complete (fuel : nat) (s e : codeunit)
    (body rest : jsstring) :
  ~ In s body -> ~ In e body -> length body < fuel ->
  parse (stringBetween fuel [s] [e]) ([s] ++ body ++ [e] ++ rest)
  = Some (Success (rest, body)).
Proof.
  intros Hs He Hlen; unfold stringBetween.
  apply map_success_iff; exists (units body).
  split; [|symmetry; apply join_units].
  apply right_success_iff; exists (body ++ [e] ++ rest), [s].
  split; [apply matchLiteral_prefix|].
  apply left_success_iff; exists ([e] ++ rest), [e].
  split; [|apply matchLiteral_prefix].
  apply zeroOrMore_units_complete.
  - apply all_units_between; auto.
  - apply between_stops_at_end.
  - exact Hlen.
Qed.

(** X22: with delimiters of one code unit, [stringBetween] accepts
    exactly a start delimiter, a body that holds neither delimiter, and an
    end delimiter, and returns the body and what follows the end
    delimiter; the budget has to exceed the length of the body. *)
Theorem stringBetween_delimited (fuel : nat) (s e : codeunit)
    (input : jsstring) :
  (forall rest body,
      parse (stringBetween fuel [s] [e]) input = Some (Success (rest, body)) ->
      input = [s] ++ body ++ [e] ++ rest /\ ~ In s body /\ ~ In e body)
  /\ (forall body rest,
         input = [s] ++ body ++ [e] ++ rest ->
         ~ In s body -> ~ In e body -> length body < fuel ->
         parse (stringBetween fuel [s] [e]) input
         = Some (Success (rest, body))).
Proof.
  split; [intros rest body; apply stringBetween_sound|].
  intros body rest ->; apply stringBetween_complete.
Qed.

Lemma stringBetween_delimited_witness :
  parse (quotedString 4) (dquote ++ str "dog" ++ dquote ++ str " x")
  = Some (Success (str " x", str "dog")).
Proof.
  apply (proj2 (stringBetween_delimited 4 34%N 34%N
                  (dquote ++ str "dog" ++ dquote ++ str " x"))
           (str "dog") (str " x")).
  - reflexivity.
  - simpl; intuition discriminate.
  - simpl; intuition discriminate.
  - simpl; lia.
Defined.

(** X23: the limitation noted above [stringBetween] in the source: when
    the start delimiter is not one code unit long and the end delimiter is
    longer than one code unit, no single code unit equals either of them,
    the repetition runs to the end of the input, and [stringBetween] never
    succeeds. *)
Theorem stringBetween_long_delimiters (fuel : nat)
    (startChar endChar input : jsstring) :
  length startChar <> 1 -> 2 <= length endChar ->
  forall rest body,
    parse (stringBetween fuel startChar endChar) input
    <> Some (Success (rest, body)).
Proof.
  intros Hs He rest body; unfold stringBetween; rewrite map_success_iff.
  intros (vs & H & _).
  apply right_success_iff in H; destruct H as (mid & a & _ & H).
  apply left_success_iff in H; destruct H as (mid2 & b & Hz & Hend).
  simpl in Hz; apply loop_run in Hz; destruct Hz as (ws & _ & Hr).
  apply units_run in Hr; destruct Hr as (inner & _ & _ & _ & Hstop).
  destruct mid2 as [|c mid2].
  - apply matchLiteral_success in Hend; destruct Hend as [_ Hend].
    destruct endChar; [simpl in He; lia | discriminate].
  - cbn [starts_with] in Hstop.
    assert (H1 : streq [c] startChar = false).
    { apply streq_false_iff; intros <-; apply Hs; reflexivity. }
    assert (H2 : streq [c] endChar = false).
    { apply streq_false_iff; intros <-; simpl in He; lia. }
    rewrite H1, H2 in Hstop; discriminate.
Qed.

Lemma stringBetween_long_delimiters_witness :
  parse (stringBetween 9 (str "<<") (str ">>")) (str "<<a>>")
  <> Some (Success ([], str "a")).
Proof.
  apply stringBetween_long_delimiters; simpl; lia.
Defined.

(** ** Tags and attributes *)

(** The tag parser inside [closeElement], before the name is compared. *)
Lemma closing_tag_sound (fuel : nat) (input rest name : jsstring) :
  parse (right (matchLiteral (str "</"))
               (left (identifier fuel) (matchLiteral (str ">")))) input
  = Some (Success (rest, name)) ->
  input = str "</" ++ name ++ str ">" ++ rest /\ is_identifier name.
Proof.
  intros H.
  apply right_success_iff in H; destruct H as (mid & a & Hs & H).
  apply left_success_iff in H; destruct H as (mid2 & b & Hi & He).
  apply matchLiteral_success in Hs, He; destruct Hs as [_ ->], He as [_ ->].
  apply identifier_sound in Hi; destruct Hi as (-> & Hne & Hb & _).
  split; [reflexivity | split; assumption].
Qed.

Lemma closing_tag_complete (fuel : nat) (name rest : jsstring) :
  is_identifier name -> length name <= fuel ->
  parse (right (matchLiteral (str "</"))
               (left (identifier fuel) (matchLiteral (str ">"))))
    (str "</" ++ name ++ str ">" ++ rest)
  = Some (Success (rest, name)).
Proof.
  intros [Hne Hb] Hlen.
  apply right_success_iff; exists (name ++ str ">" ++ rest), (str "</").
  split; [apply matchLiteral_prefix|].
  apply left_success_iff; exists (str ">" ++ rest), (str ">").
  split; [|apply matchLiteral_prefix].
  apply identifier_complete; auto.
Qed.

Lemma closeElement_complete (fuel : nat) (name rest : jsstring) :
  is_identifier name -> length name <= fuel ->
  parse (closeElement fuel name) (str "</" ++ name ++ str ">" ++ rest)
  = Some (Success (rest, name)).
Proof.
  intros Hn Hlen; unfold closeElement; cbn [parse pred].
  rewrite (closing_tag_complete rest Hn Hlen), streq_refl; reflexivity.
Qed.

(** X24: [closeElement n] accepts exactly the closing tag of the name
    [n].  On the closing tag of another name it fails with the input it
    was given, the tag not consumed. *)
Theorem closeElement_matches_name (fuel : nat)
    (expectedName input : jsstring) :
  (forall rest name,
      parse (closeElement fuel expectedName) input
      = Some (Success (rest, name)) ->
      name = expectedName
      /\ input = str "</" ++ expectedName ++ str ">" ++ rest
      /\ is_identifier expectedName)
  /\ (forall rest,
         input = str "</" ++ expectedName ++ str ">" ++ rest ->
         is_identifier expectedName -> length expectedName <= fuel ->
         parse (closeElement fuel expectedName) input
         = Some (Success (rest, expectedName)))
  /\ (forall name rest,
         input = str "</" ++ name ++ str ">" ++ rest ->
         is_identifier name -> length name <= fuel ->
         name <> expectedName ->
         parse (closeElement fuel expectedName) input
         = Some (Failure input)).
Proof.
  split; [|split].
  - intros rest name H; unfold closeElement in H.
    apply pred_success in H; destruct H as [H Heq].
    apply streq_true_iff in Heq; subst name.
    apply closing_tag_sound in H; destruct H as [-> Hn]; auto.
  - intros rest ->; apply closeElement_complete.
  - intros name rest -> Hn Hlen Hneq; unfold closeElement; cbn [parse pred].
    rewrite (closing_tag_complete rest Hn Hlen).
    apply streq_false_iff in Hneq; rewrite Hneq; reflexivity.
Qed.

Lemma closeElement_matches_name_witness :
  parse (closeElement 3 (str "div")) (str "</div>x")
  = Some (Success (str "x", str "div"))
  /\ parse (closeElement 3 (str "div")) (str "</img>x")
     = Some (Failure (str "</img>x")).
Proof.
  split.
  - apply (proj1 (proj2 (closeElement_matches_name 3 (str "div")
                           (str "</div>x"))) (str "x")).
    + reflexivity.
    + split; [discriminate | reflexivity].
    + simpl; lia.
  - apply (proj2 (proj2 (closeElement_matches_name 3 (str "div")
                           (str "</img>x"))) (str "img") (str "x")).
    + reflexivity.
    + split; [discriminate | reflexivity].
    + simpl; lia.
    + discriminate.
Defined.

Lemma attributePair_complete (fuel : nat) (key value rest : jsstring) :
  is_identifier key -> ~ In 34%N value ->
  length key <= fuel -> length value < fuel ->
  parse (attributePair fuel)
    (key ++ str "=" ++ dquote ++ value ++ dquote ++ rest)
  = Some (Success (rest, (key, value))).
Proof.
  intros [Hne Hb] Hv Hk Hlen; unfold attributePair.
  apply pair_success_iff.
  exists (str "=" ++ dquote ++ value ++ dquote ++ rest); split.
  - apply identifier_complete; auto.
  - apply right_success_iff.
    exists (dquote ++ value ++ dquote ++ rest), (str "=").
    split; [apply matchLiteral_prefix|].
    apply stringBetween_complete; assumption.
Qed.

(** X25: [attributePair] accepts exactly a name of letters and digits,
    an equals sign and a value between double quotes that holds no double
    quote, and returns the name and the value. *)
Theorem attributePair_key_value (fuel : nat) (input : jsstring) :
  (forall rest key value,
      parse (attributePair fuel) input = Some (Success (rest, (key, value))) ->
      input = key ++ str "=" ++ dquote ++ value ++ dquote ++ rest
      /\ is_identifier key /\ ~ In 34%N value)
  /\ (forall key value rest,
         input = key ++ str "=" ++ dquote ++ value ++ dquote ++ rest ->
         is_identifier key -> ~ In 34%N value ->
         length key <= fuel -> length value < fuel ->
         parse (attributePair fuel) input
         = Some (Success (rest, (key, value)))).
Proof.
  split.
  - intros rest key value H; unfold attributePair in H.
    apply pair_success_iff in H; destruct H as (mid & Hk & H).
    apply right_success_iff in H; destruct H as (mid2 & a & He & Hq).
    apply identifier_sound in Hk; destruct Hk as (-> & Hne & Hb & _).
    apply matchLiteral_success in He; destruct He as [_ ->].
    apply stringBetween_sound in Hq; destruct Hq as (-> & Hq & _).
    split; [reflexivity | split; [split; assumption | exact Hq]].
  - intros key value rest ->; apply attributePair_complete.
Qed.

Lemma attributePair_key_value_witness :
  parse (attributePair 4) (str "dog=" ++ dquote ++ str "poo" ++ dquote)
  = Some (Success ([], (str "dog", str "poo"))).
Proof.
  apply (proj2 (attributePair_key_value 4
                  (str "dog=" ++ dquote ++ str "poo" ++ dquote))
           (str "dog") (str "poo") []).
  - reflexivity.
  - split; [discriminate | reflexivity].
  - simpl; intuition discriminate.
  - simpl; lia.
  - simpl; lia.
Defined.

(** ** Failures pass through the sequencing combinators *)

Section FailurePropagation.

Context {A B : Type}.
Variables (p : Parser A) (q : Parser B).

Lemma map_failure (f : A -> B) (input : jsstring) (e : Error) :
  parse p input = Some (Failure e) ->
  parse (map p f) input = Some (Failure e).
Proof. intros H; simpl; rewrite H; reflexivity. Qed.

Lemma pair_failure_first (input : jsstring) (e : Error) :
  parse p input = Some (Failure e) ->
  parse (pair p q) input = Some (Failure e).
Proof. intros H; simpl; rewrite H; reflexivity. Qed.

Lemma pair_failure_second (input mid : jsstring) (a : A) (e : Error) :
  parse p input = Some (Success (mid, a)) ->
  parse q mid = Some (Failure e) ->
  parse (pair p q) input = Some (Failure e).
Proof. intros Hp Hq; simpl; rewrite Hp, Hq; reflexivity. Qed.

End FailurePropagation.

Lemma left_failure_first {A B} (p : Parser A) (q : Parser B) input e :
  parse p input = Some (Failure e) ->
  parse (left p q) input = Some (Failure e).
Proof. intros H; apply map_failure, pair_failure_first, H. Qed.

Lemma left_failure_second {A B} (p : Parser A) (q : Parser B) input mid a e :
  parse p input = Some (Success (mid, a)) ->
  parse q mid = Some (Failure e) ->
  parse (left p q) input = Some (Failure e).
Proof. intros Hp Hq; eapply map_failure, pair_failure_second; eauto. Qed.

Lemma right_failure_first {A B} (p : Parser A) (q : Parser B) input e :
  parse p input = Some (Failure e) ->
  parse (right p q) input = Some (Failure e).
Proof. intros H; apply map_failure, pair_failure_first, H. Qed.

Lemma right_failure_second {A B} (p : Parser A) (q : Parser B) input mid a e :
  parse p input = Some (Success (mid, a)) ->
  parse q mid = Some (Failure e) ->
  parse (right p q) input = Some (Failure e).
Proof. intros Hp Hq; eapply map_failure, pair_failure_second; eauto. Qed.

(** ** Reading back a rendered element *)

Lemma alphaNumeric_not_whiteSpace (c : codeunit) :
  isAlphaNumeric [c] = true -> isWhiteSpace c = false.
Proof.
  intros H; apply not_true_is_false; intros Hws.
  unfold isAlphaNumeric in H; unfold isWhiteSpace in Hws.
  rewrite !orb_true_iff, !andb_true_iff, !N.ltb_lt in H.
  rewrite !orb_true_iff, !andb_true_iff, !N.leb_le, !N.eqb_eq in Hws.
  lia.
Qed.

Lemma identifier_not_whitespace (name rest : jsstring) :
  is_identifier name ->
  starts_with (fun a => streq (trim a) []) (name ++ rest) = false.
Proof.
  intros [Hne Hb]; destruct name as [|c name]; [contradiction|].
  simpl in Hb; apply andb_true_iff in Hb; destruct Hb as [Hc _].
  cbn [app starts_with]; rewrite trim_unit.
  apply alphaNumeric_not_whiteSpace, Hc.
Qed.

Lemma space1_one_space (fuel : nat) (rest : jsstring) :
  1 <= fuel ->
  starts_with (fun a => streq (trim a) []) rest = false ->
  parse (space1 fuel) (str " " ++ rest) = Some (Success (rest, [str " "])).
Proof.
  intros Hf Hr; unfold space1, whitespace.
  apply (@oneOrMore_units_complete (fun a => streq (trim a) []) fuel
           (str " ") rest); auto; discriminate.
Qed.

Lemma attribute_complete (fuel : nat) (attribute : jsstring * jsstring)
    (rest : jsstring) :
  well_formed_attribute attribute ->
  length (render_attribute attribute) <= fuel ->
  parse (right (space1 fuel) (attributePair fuel))
    (render_attribute attribute ++ rest)
  = Some (Success (rest, attribute)).
Proof.
  destruct attribute as [key value]; intros [Hk Hv] Hlen.
  unfold render_attribute in *; cbn [fst snd] in *.
  rewrite !length_app in Hlen; simpl in Hlen.
  apply right_success_iff.
  exists (key ++ str "=" ++ dquote ++ value ++ dquote ++ rest), [str " "].
  split.
  - rewrite <- !app_assoc; apply space1_one_space; [lia|].
    apply identifier_not_whitespace, Hk.
  - apply attributePair_complete; auto; lia.
Qed.

Lemma attribute_fails (fuel : nat) (input : jsstring) :
  starts_with (fun a => streq (trim a) []) input = false ->
  parse (right (space1 fuel) (attributePair fuel)) input
  = Some (Failure input).
Proof.
  intros H; apply right_failure_first.
  unfold space1, whitespace; apply oneOrMore_units_fails, H.
Qed.

Section Rendered.

Context {A : Type}.
Variables (p : Parser A) (show : A -> jsstring).

(** Items rendered one after the other are read back one by one. *)
Lemma run_rendered (items : list A) (tail : jsstring) (e : Error) :
  (forall a rest, In a items ->
                  parse p (show a ++ rest) = Some (Success (rest, a))) ->
  parse p tail = Some (Failure e) ->
  run_of p (List.concat (List.map show items) ++ tail) items tail.
Proof.
  intros Hitems Htail; induction items as [|a items IH]; simpl.
  - apply run_stop with (e := e), Htail.
  - rewrite <- app_assoc.
    apply run_step with (next := List.concat (List.map show items) ++ tail).
    + apply Hitems; left; reflexivity.
    + apply IH; intros b rest Hb; apply Hitems; right; exact Hb.
Qed.

Lemma length_rendered_in (items : list A) (a : A) :
  In a items -> length (show a) <= length (List.concat (List.map show items)).
Proof.
  induction items as [|b items IH]; simpl; [tauto|].
  rewrite length_app; intros [->|H]; [lia | apply IH in H; lia].
Qed.

Lemma length_rendered_count (items : list A) :
  (forall a, 1 <= length (show a)) ->
  length items <= length (List.concat (List.map show items)).
Proof.
  intros H; induction items as [|b items IH]; simpl; [lia|].
  rewrite length_app; specialize (H b); lia.
Qed.

End Rendered.

Lemma length_render_attribute (attribute : jsstring * jsstring) :
  length (render_attribute attribute)
  = 4 + length (fst attribute) + length (snd attribute).
Proof.
  unfold render_attribute; rewrite !length_app; simpl; lia.
Qed.

Lemma attributes_complete (fuel : nat)
    (attrs : list (jsstring * jsstring)) (tail : jsstring) :
  Forall well_formed_attribute attrs ->
  length (render_attributes attrs) < fuel ->
  starts_with (fun a => streq (trim a) []) tail = false ->
  parse (attributes fuel) (render_attributes attrs ++ tail)
  = Some (Success (tail, attrs)).
Proof.
  intros Hwf Hlen Htail; unfold attributes, render_attributes in *.
  cbn [parse zeroOrMore].
  apply (@run_loop _ _ _ _ _
           (@run_rendered _ (right (space1 fuel) (attributePair fuel))
              render_attribute attrs tail tail
              ltac:(intros a rest Ha; apply attribute_complete;
                    [ exact (proj1 (Forall_forall _ _) Hwf a Ha)
                    | pose proof (length_rendered_in render_attribute
                                    attrs a Ha); lia ])
              (attribute_fails fuel tail Htail))
           fuel []).
  pose proof (@length_rendered_count _ render_attribute attrs) as H.
  assert (length attrs <= length (List.concat (List.map render_attribute attrs))).
  { apply H; intros a; rewrite length_render_attribute; lia. }
  lia.
Qed.

Lemma isAlphaNumeric_after_name (attrs : list (jsstring * jsstring))
    (tail : jsstring) :
  isAlphaNumeric tail = false ->
  isAlphaNumeric (render_attributes attrs ++ tail) = false.
Proof.
  intros H; destruct attrs as [|a attrs]; [exact H | reflexivity].
Qed.

Lemma elementStart_complete (fuel : nat) (name : jsstring)
    (attrs : list (jsstring * jsstring)) (tail : jsstring) :
  is_identifier name -> Forall well_formed_attribute attrs ->
  length name <= fuel -> length (render_attributes attrs) < fuel ->
  starts_with (fun a => streq (trim a) []) tail = false ->
  isAlphaNumeric tail = false ->
  parse (elementStart fuel) (str "<" ++ name ++ render_attributes attrs ++ tail)
  = Some (Success (tail, (name, attrs))).
Proof.
  intros [Hne Hb] Hwf Hn Ha Hws Han; unfold elementStart.
  apply right_success_iff.
  exists (name ++ render_attributes attrs ++ tail), (str "<").
  split; [apply matchLiteral_prefix|].
  apply pair_success_iff; exists (render_attributes attrs ++ tail); split.
  - apply identifier_complete; auto.
    apply isAlphaNumeric_after_name, Han.
  - apply attributes_complete; assumption.
Qed.

Section Tags.

Variables (fuel : nat) (name : jsstring).
Variable attrs : list (jsstring * jsstring).
Hypothesis Hname : is_identifier name.
Hypothesis Hattrs : Forall well_formed_attribute attrs.
Hypothesis Hn : length name <= fuel.
Hypothesis Ha : length (render_attributes attrs) < fuel.

Lemma singleElement_complete (rest : jsstring) :
  parse (singleElement fuel)
    (str "<" ++ name ++ render_attributes attrs ++ str "/>" ++ rest)
  = Some (Success (rest, mkElement name attrs [])).
Proof.
  unfold singleElement; apply map_success_iff.
  exists (name, attrs); split; [|reflexivity].
  apply left_success_iff; exists (str "/>" ++ rest), (str "/>").
  split; [|apply matchLiteral_prefix].
  apply elementStart_complete; auto.
Qed.

Lemma openElement_complete (rest : jsstring) :
  parse (openElement fuel)
    (str "<" ++ name ++ render_attributes attrs ++ str ">" ++ rest)
  = Some (Success (rest, mkElement name attrs [])).
Proof.
  unfold openElement; apply map_success_iff.
  exists (name, attrs); split; [|reflexivity].
  apply left_success_iff; exists (str ">" ++ rest), (str ">").
  split; [|apply matchLiteral_prefix].
  apply elementStart_complete; auto.
Qed.

(** The self-closing form is tried first and fails at the [>]. *)
Lemma singleElement_fails_on_open (rest : jsstring) :
  parse (singleElement fuel)
    (str "<" ++ name ++ render_attributes attrs ++ str ">" ++ rest)
  = Some (Failure (str ">" ++ rest)).
Proof.
  unfold singleElement; apply map_failure.
  apply left_failure_second with (mid := str ">" ++ rest) (a := (name, attrs)).
  - apply elementStart_complete; auto.
  - apply matchLiteral_mismatch; intros r; discriminate.
Qed.

End Tags.

(** Where a closing tag starts, no element does. *)
Lemma element_fails_on_close (fuel : nat) (tail : jsstring) :
  parse (element (S fuel)) (str "</" ++ tail) = Some (Failure (str "/" ++ tail)).
Proof.
  assert (Hstart : parse (elementStart (S fuel)) (str "</" ++ tail)
                   = Some (Failure (str "/" ++ tail))).
  { unfold elementStart.
    apply right_failure_second with (mid := str "/" ++ tail) (a := str "<").
    - apply (matchLiteral_prefix (str "<")).
    - apply pair_failure_first, identifier_fails; reflexivity. }
  assert (Hs : parse (singleElement (S fuel)) (str "</" ++ tail)
               = Some (Failure (str "/" ++ tail)))
    by (unfold singleElement; apply map_failure, left_failure_first, Hstart).
  assert (Ho : parse (openElement (S fuel)) (str "</" ++ tail)
               = Some (Failure (str "/" ++ tail)))
    by (unfold openElement; apply map_failure, left_failure_first, Hstart).
  cbn [element]; cbn [parse either]; rewrite Hs.
  unfold parentElement; cbn [parse andThen]; rewrite Ho; reflexivity.
Qed.

Lemma render_nonempty (el : Element) : 3 <= length (render el).
Proof.
  destruct el as [name attrs [|c cs]]; cbn [render];
    rewrite !length_app; simpl; lia.
Qed.

Lemma closeElement_mismatch (fuel : nat) (expectedName name rest : jsstring) :
  is_identifier name -> length name <= fuel -> name <> expectedName ->
  parse (closeElement fuel expectedName) (str "</" ++ name ++ str ">" ++ rest)
  = Some (Failure (str "</" ++ name ++ str ">" ++ rest)).
Proof.
  intros Hn Hlen Hneq; unfold closeElement; cbn [parse pred].
  rewrite (closing_tag_complete rest Hn Hlen).
  apply streq_false_iff in Hneq; rewrite Hneq; reflexivity.
Qed.

(** The open and close form [<name attrs>children</other>], read with one
    more nested call than its children need. *)
Section ParentForm.

Variables (fuel : nat) (name : jsstring).
Variable attrs : list (jsstring * jsstring).
Variable children : list Element.
Hypothesis Hname : is_identifier name.
Hypothesis Hattrs : Forall well_formed_attribute attrs.
Hypothesis Hn : length name <= S fuel.
Hypothesis Ha : length (render_attributes attrs) < S fuel.
Hypothesis Hfuel : 1 <= fuel.
Hypothesis Hcount : length children <= fuel.
Hypothesis Hchildren :
  forall c r, In c children ->
              parse (element fuel) (render c ++ r) = Some (Success (r, c)).

Lemma children_read_back (tail : jsstring) :
  parse (zeroOrMore (S fuel) (element fuel))
    (List.concat (List.map render children) ++ str "</" ++ tail)
  = Some (Success (str "</" ++ tail, children)).
Proof.
  cbn [parse zeroOrMore].
  assert (Hend : parse (element fuel) (str "</" ++ tail)
                 = Some (Failure (str "/" ++ tail))).
  { destruct fuel as [|fuel']; [lia | apply element_fails_on_close]. }
  apply (@run_loop _ _ _ _ _
           (@run_rendered _ (element fuel) render children
              (str "</" ++ tail) (str "/" ++ tail) Hchildren Hend)
           (S fuel) []).
  lia.
Qed.

(** After the opening tag, [element] runs the continuation of
    [parentElement] on what follows. *)
Lemma element_after_open (rest : jsstring) :
  parse (element (S fuel))
    (str "<" ++ name ++ render_attributes attrs ++ str ">" ++ rest)
  = parse
      (map (left (zeroOrMore (S fuel) (element fuel))
                 (closeElement (S fuel) name))
           (fun children => mkElement name attrs children))
      rest.
Proof.
  cbn [element]; cbn [parse either].
  rewrite singleElement_fails_on_open by assumption.
  unfold parentElement; cbn [parse andThen].
  rewrite openElement_complete by assumption.
  reflexivity.
Qed.

Lemma parent_form_reads_back (rest : jsstring) :
  parse (element (S fuel))
    (str "<" ++ name ++ render_attributes attrs ++ str ">"
     ++ List.concat (List.map render children)
     ++ str "</" ++ name ++ str ">" ++ rest)
  = Some (Success (rest, mkElement name attrs children)).
Proof.
  rewrite element_after_open.
  apply map_success_iff; exists children; split; [|reflexivity].
  apply left_success_iff; exists (str "</" ++ name ++ str ">" ++ rest), name.
  split; [apply children_read_back|].
  apply closeElement_complete; assumption.
Qed.

Lemma parent_form_mismatch (other rest : jsstring) :
  is_identifier other -> length other <= S fuel -> other <> name ->
  parse (element (S fuel))
    (str "<" ++ name ++ render_attributes attrs ++ str ">"
     ++ List.concat (List.map render children)
     ++ str "</" ++ other ++ str ">" ++ rest)
  = Some (Failure (str "</" ++ other ++ str ">" ++ rest)).
Proof.
  intros Ho Hlen Hneq; rewrite element_after_open.
  apply map_failure.
  eapply left_failure_second; [apply children_read_back|].
  apply closeElement_mismatch; assumption.
Qed.

End ParentForm.

Lemma element_reads_back (fuel : nat) :
  forall el rest,
    well_formed el -> length (render el) <= fuel ->
    parse (element fuel) (render el ++ rest) = Some (Success (rest, el)).
Proof.
  induction fuel as [|fuel IH]; intros el rest Hwf Hlen.
  - pose proof (render_nonempty el); lia.
  - destruct Hwf as [name attrs children Hname Hattrs Hchildren].
    destruct children as [|c cs].
    + cbn [render] in *; rewrite !length_app in Hlen; simpl length in Hlen.
      rewrite <- !app_assoc; cbn [element]; cbn [parse either].
      rewrite singleElement_complete by (auto; lia); reflexivity.
    + remember (c :: cs) as children eqn:Hcs.
      assert (Hrender :
                render (mkElement name attrs children)
                = str "<" ++ name ++ render_attributes attrs ++ str ">"
                  ++ List.concat (List.map render children)
                  ++ str "</" ++ name ++ str ">")
        by (subst children; reflexivity).
      rewrite Hrender in *; clear Hrender.
      rewrite !length_app in Hlen; simpl length in Hlen.
      pose proof (@length_rendered_count _ render children
                    ltac:(intros a; pose proof (render_nonempty a); lia)).
      rewrite <- !app_assoc.
      apply parent_form_reads_back; auto; try lia.
      intros a r Hin; apply IH.
      * exact (proj1 (Forall_forall _ _) Hchildren a Hin).
      * pose proof (length_rendered_in render children a Hin); lia.
Qed.

Example render_nested_element : render nested_element = nested_document.
Proof. reflexivity. Qed.

(** X26: an element written out with [render] is read back by
    [element()]: for a well-formed element, whatever follows its text, the
    parser returns that element and leaves what follows, once the budget
    reaches the length of the text. *)
Theorem element_reads_rendered (el : Element) (rest : jsstring)
    (fuel : nat) :
  well_formed el -> length (render el) <= fuel ->
  runParser (element fuel) (render el ++ rest) = Some (Success (rest, el)).
Proof. intros Hwf Hlen; apply element_reads_back; assumption. Qed.

Lemma element_reads_rendered_witness :
  runParser (element 47) (render nested_element ++ str " tail")
  = Some (Success (str " tail", nested_element)).
Proof.
  apply element_reads_rendered.
  - unfold nested_element.
    repeat (constructor; try (split; [discriminate | reflexivity]);
            try (simpl; intuition discriminate)).
  - simpl; lia.
Defined.

(** X27: an opening tag followed at once by its closing tag is read as
    the element without children, the value the self-closing form gives. *)
Theorem open_close_is_self_closing (name : jsstring)
    (attrs : list (jsstring * jsstring)) (rest : jsstring) (fuel : nat) :
  is_identifier name -> Forall well_formed_attribute attrs ->
  length name + length (render_attributes attrs) + 2 <= fuel ->
  runParser (element fuel)
    (str "<" ++ name ++ render_attributes attrs ++ str ">"
     ++ str "</" ++ name ++ str ">" ++ rest)
  = Some (Success (rest, mkElement name attrs []))
  /\ runParser (element fuel)
       (str "<" ++ name ++ render_attributes attrs ++ str "/>" ++ rest)
     = Some (Success (rest, mkElement name attrs [])).
Proof.
  intros Hname Hattrs Hlen; unfold runParser.
  destruct fuel as [|fuel]; [lia|]; split.
  - apply (@parent_form_reads_back fuel name attrs []); auto; try lia.
    + simpl; lia.
    + intros c r [].
  - cbn [element]; cbn [parse either].
    rewrite singleElement_complete by (auto; lia); reflexivity.
Qed.

Lemma open_close_is_self_closing_witness :
  runParser (element 3) (str "<a></a>") = Some (Success ([], mkElement (str "a") [] []))
  /\ runParser (element 3) (str "<a/>") = Some (Success ([], mkElement (str "a") [] [])).
Proof.
  apply (@open_close_is_self_closing (str "a") [] [] 3).
  - split; [discriminate | reflexivity].
  - constructor.
  - simpl; lia.
Defined.

(** X28: when the closing tag names another element than the opening
    tag, [element()] fails, and the error is the input from that closing tag
    on: the children before it were read, the tag itself was put back. *)
Theorem mismatched_close_fails_at_tag (name other : jsstring)
    (attrs : list (jsstring * jsstring)) (children : list Element)
    (rest : jsstring) (fuel : nat) :
  is_identifier name -> is_identifier other -> other <> name ->
  Forall well_formed_attribute attrs -> Forall well_formed children ->
  length name + length other + length (render_attributes attrs)
  + length (List.concat (List.map render children)) + 2 <= fuel ->
  runParser (element fuel)
    (str "<" ++ name ++ render_attributes attrs ++ str ">"
     ++ List.concat (List.map render children)
     ++ str "</" ++ other ++ str ">" ++ rest)
  = Some (Failure (str "</" ++ other ++ str ">" ++ rest)).
Proof.
  intros Hname Hother Hneq Hattrs Hchildren Hlen; unfold runParser.
  destruct fuel as [|fuel]; [lia|].
  pose proof (@length_rendered_count _ render children
                ltac:(intros a; pose proof (render_nonempty a); lia)).
  apply parent_form_mismatch; auto; try lia.
  intros a r Hin; apply element_reads_back.
  - exact (proj1 (Forall_forall _ _) Hchildren a Hin).
  - pose proof (length_rendered_in render children a Hin); lia.
Qed.

Lemma mismatched_close_fails_at_tag_witness :
  runParser (element 8) (str "<a><b/></c>x") = Some (Failure (str "</c>x")).
Proof.
  apply (@mismatched_close_fails_at_tag (str "a") (str "c") []
           [mkElement (str "b") [] []] (str "x") 8).
  - split; [discriminate | reflexivity].
  - split; [discriminate | reflexivity].
  - discriminate.
  - constructor.
  - repeat constructor; discriminate.
  - simpl; lia.
Defined.

(** X29: on an input that does not start with [<], [element()] fails
    with that input, nothing consumed. *)
Theorem element_rejects_other_start (fuel : nat) (input : jsstring) :
  (forall rest, input <> str "<" ++ rest) ->
  runParser (element (S fuel)) input = Some (Failure input).
Proof.
  intros Hstart; unfold runParser.
  assert (Hs : parse (elementStart (S fuel)) input = Some (Failure input))
    by (unfold elementStart;
        apply right_failure_first, matchLiteral_mismatch, Hstart).
  assert (Hsingle : parse (singleElement (S fuel)) input
                    = Some (Failure input))
    by (unfold singleElement; apply map_failure, left_failure_first, Hs).
  assert (Hopen : parse (openElement (S fuel)) input = Some (Failure input))
    by (unfold openElement; apply map_failure, left_failure_first, Hs).
  cbn [element]; cbn [parse either]; rewrite Hsingle.
  unfold parentElement; cbn [parse andThen]; rewrite Hopen; reflexivity.
Qed.

Lemma element_rejects_other_start_witness :
  runParser (element 1) (str "div>") = Some (Failure (str "div>"))
  /\ runParser (element 1) [] = Some (Failure []).
Proof.
  split; apply element_rejects_other_start; intros rest; discriminate.
Defined.
